(** * The move-decision engine of the minimax cycles bot

    A shallow embedding of [SmartestBotClient]: the legality check
    [is_valid_move], the flood fill [floodFill], the static evaluation
    [evaluate], the alpha-beta search [minimax], the terminal test
    [game_over], the move application [movePlayer] and the driver
    [decideMove], followed by the properties established about them. *)

From Stdlib Require Import ZArith Lia.
From stdpp Require Import base tactics option list gmap sets strings.

Local Open Scope Z_scope.

(** ** Machine integers

    The engine computes with C++ [int] (32 bits, two's complement).  An
    [int] is a [Z]; every arithmetic result that the code stores in an
    [int] goes through [wrap_int]. *)

Definition INT_MIN : Z := -2147483648.
Definition INT_MAX : Z := 2147483647.

Definition wrap_int (z : Z) : Z := (z + 2147483648) mod 4294967296 - 2147483648.

(** ** The game API used by the bot

    [sf::Vector2i] is a pair of [int]s, [x] first. *)

Abbreviation Vector2i := (Z * Z)%type.

(** [operator+] of [sf::Vector2i]: component-wise [int] addition. *)
Definition vadd (a b : Vector2i) : Vector2i :=
  (wrap_int (a.1 + b.1), wrap_int (a.2 + b.2)).

(** Modelled from the spec: the [Direction] enumeration of [utils.h], whose
    declaration is not part of the sources at hand.  Section 3 of the
    specification fixes the canonical order Up, Down, Left, Right. *)
Inductive Direction : Type := Up | Down | Left | Right.

(** Modelled from the spec: [getDirectionFromValue] of [utils.h], the
    direction at a given rank of the canonical order. *)
Definition getDirectionFromValue (v : Z) : Direction :=
  match v with
  | 0 => Up
  | 1 => Down
  | 2 => Left
  | _ => Right
  end.

(** Modelled from the spec: [getDirectionVector] of [utils.h], the unit
    displacement of a direction, in screen coordinates ([y] grows
    downwards, so that Right and Down leave the corner (0,0) inside the
    board as in the end-to-end scenario of section 8). *)
Definition getDirectionVector (d : Direction) : Vector2i :=
  match d with
  | Up => (0, -1)
  | Down => (0, 1)
  | Left => (-1, 0)
  | Right => (1, 0)
  end.

(** Modelled from the spec: the [Player] structure of [api.h], an identity
    and a current position. *)
Record Player : Type := mkPlayer {
  name : string;
  position : Vector2i
}.

(** Modelled from the spec: the [GameState] structure of [api.h], a grid of
    fixed width and height that maps a cell coordinate to its occupancy
    (0 is free, anything else is blocked), and the players. *)
Record GameState : Type := mkGameState {
  gridWidth : Z;
  gridHeight : Z;
  grid : Vector2i → Z;
  players : list Player
}.

(** Modelled from the spec: [GameState::isInsideGrid], both components
    within [0, width) x [0, height). *)
Definition isInsideGrid (gs : GameState) (pos : Vector2i) : bool :=
  (0 <=? pos.1) && (pos.1 <? gridWidth gs) && (0 <=? pos.2) && (pos.2 <? gridHeight gs).

(** Modelled from the spec: [GameState::getGridCell], the occupancy of a
    cell. *)
Definition getGridCell (gs : GameState) (pos : Vector2i) : Z := grid gs pos.

(** Modelled from the spec: [GameState::setGridCell], which overwrites the
    occupancy of one cell and nothing else. *)
Definition setGridCell (gs : GameState) (pos : Vector2i) (v : Z) : GameState :=
  {| gridWidth := gridWidth gs;
     gridHeight := gridHeight gs;
     grid := λ q, if decide (q = pos) then v else grid gs q;
     players := players gs |}.

(** ** The bot object

    The fields of [SmartestBotClient] that the engine reads; its [name]
    is [bot_name] here, [name] being the field of [Player].  The
    connection and the random generator play no part in a decision. *)
Record SmartestBotClient : Type := mkBot {
  bot_name : string;
  state : GameState;
  my_player : Player;
  opponent : Player
}.

Definition MAX_DEPTH : Z := 3.

(** The values taken by [dir_value] in every
    [for (int dir_value = 0; dir_value < 4; ++dir_value)]. *)
Definition dir_values : list Z := [0; 1; 2; 3].

(** ** Move legality *)

Definition is_valid_move (gameState : GameState) (player : Player) (direction : Direction) : bool :=
  let new_pos := vadd (position player) (getDirectionVector direction) in
  if negb (isInsideGrid gameState new_pos) then false
  else if negb (getGridCell gameState new_pos =? 0) then false
  else true.

(** ** Flood fill

    The outcome of a run that indexes an array: a value, an access outside
    the array, or an exhausted iteration budget. *)
Inductive outcome (A : Type) : Type :=
  | Done (a : A)
  | OutOfRange
  | OutOfFuel.
Arguments Done {A} a.
Arguments OutOfRange {A}.
Arguments OutOfFuel {A}.

(** [visited[pos.x][pos.y]], read.  The indices are converted to unsigned
    sizes, so a negative index is far outside the array. *)
Definition visited_get (visited : list (list bool)) (pos : Vector2i) : option bool :=
  if (pos.1 <? 0) || (pos.2 <? 0) then None
  else match visited !! Z.to_nat pos.1 with
       | Some column => column !! Z.to_nat pos.2
       | None => None
       end.

(** [visited[pos.x][pos.y] = true]. *)
Definition visited_mark (visited : list (list bool)) (pos : Vector2i) : option (list (list bool)) :=
  if (pos.1 <? 0) || (pos.2 <? 0) then None
  else match visited !! Z.to_nat pos.1 with
       | Some column =>
           if decide (Z.to_nat pos.2 < length column)%nat
           then Some (<[Z.to_nat pos.1 := <[Z.to_nat pos.2 := true]> column]> visited)
           else None
       | None => None
       end.

(** The four pushes of the inner loop, in the order of [dir_values]. *)
Definition push_neighbours (queue : list Vector2i) (pos : Vector2i) : list Vector2i :=
  foldl (λ q dir_value,
           let dir := getDirectionFromValue dir_value in
           let next_pos := vadd pos (getDirectionVector dir) in
           q ++ [next_pos])
        queue dir_values.

(** The [while (!queue.empty())] loop: one unit of fuel per iteration. *)
Fixpoint floodFill_loop (fuel : nat) (gameState : GameState)
    (visited : list (list bool)) (queue : list Vector2i) (area : Z) : outcome Z :=
  match fuel with
  | O => OutOfFuel
  | S fuel' =>
      match queue with
      | [] => Done area
      | pos :: queue' =>
          if negb (isInsideGrid gameState pos) then
            floodFill_loop fuel' gameState visited queue' area
          else
            match visited_get visited pos with
            | None => OutOfRange
            | Some true => floodFill_loop fuel' gameState visited queue' area
            | Some false =>
                if negb (getGridCell gameState pos =? 0) then
                  floodFill_loop fuel' gameState visited queue' area
                else
                  match visited_mark visited pos with
                  | None => OutOfRange
                  | Some visited' =>
                      floodFill_loop fuel' gameState visited'
                        (push_neighbours queue' pos) (wrap_int (area + 1))
                  end
            end
      end
  end.

(** The [visited] array as constructed: [gridWidth] columns of
    [gridHeight] cells, all false.  This is the array for dimensions that
    are not negative, which [Z.to_nat] converts to sizes; with a negative
    dimension the constructor of the source throws instead of building an
    array, a case that this definition does not describe. *)
Definition visited_init (gameState : GameState) : list (list bool) :=
  replicate (Z.to_nat (gridWidth gameState))
            (replicate (Z.to_nat (gridHeight gameState)) false).

(** An iteration budget that the loop never exhausts
    (see [floodFill_run_spec]). *)
Definition floodFill_fuel (gameState : GameState) : nat :=
  4 * (Z.to_nat (gridWidth gameState) * Z.to_nat (gridHeight gameState)) + 2.

Definition floodFill_run (gameState : GameState) (start_pos : Vector2i) : outcome Z :=
  floodFill_loop (floodFill_fuel gameState) gameState (visited_init gameState) [start_pos] 0.

Definition floodFill (gameState : GameState) (start_pos : Vector2i) : Z :=
  match floodFill_run gameState start_pos with
  | Done area => area
  | _ => 0
  end.

(** ** Static evaluation *)

Definition evaluate (self : SmartestBotClient) (gameState : GameState) : Z :=
  let my_area := floodFill gameState (position (my_player self)) in
  let opp_area := floodFill gameState (position (opponent self)) in
  wrap_int (my_area - opp_area).

(** ** Terminal test *)

Definition game_over (self : SmartestBotClient) (gameState : GameState) : bool :=
  let '(my_moves, opp_moves) :=
    foldl (λ '(my_moves, opp_moves) dir_value,
             let dir := getDirectionFromValue dir_value in
             ((if is_valid_move gameState (my_player self) dir then true else my_moves),
              (if is_valid_move gameState (opponent self) dir then true else opp_moves)))
          (false, false) dir_values in
  negb (my_moves || opp_moves).

(** ** Move application

    [movePlayer] writes through its two reference parameters; the
    embedding returns the new contents of both referents. *)
Definition movePlayer (gameState : GameState) (player : Player) (dir : Direction)
    : GameState * Player :=
  let new_pos := vadd (position player) (getDirectionVector dir) in
  let gameState := setGridCell gameState new_pos 1 in
  let player := {| name := name player; position := new_pos |} in
  (gameState, player).

(** ** Alpha-beta search

    The two [for] loops of [minimax].  [rec] is the recursive call
    [minimax(newGameState, depth - 1, ..., alpha, beta)]; it reads the
    fields [my_player] and [opponent] of the same object, so the player
    copy that [movePlayer] updated is dropped when the loop body ends. *)
Fixpoint max_layer (rec : GameState → Z → Z → option Z) (self : SmartestBotClient)
    (gameState : GameState) (dvs : list Z) (maxEval alpha beta : Z) : option Z :=
  match dvs with
  | [] => Some maxEval
  | dir_value :: dvs' =>
      let dir := getDirectionFromValue dir_value in
      if is_valid_move gameState (my_player self) dir then
        let '(newGameState, newMyPlayer) := movePlayer gameState (my_player self) dir in
        match rec newGameState alpha beta with
        | None => None
        | Some eval =>
            let maxEval := Z.max maxEval eval in
            let alpha := Z.max alpha eval in
            if beta <=? alpha then Some maxEval
            else max_layer rec self gameState dvs' maxEval alpha beta
        end
      else max_layer rec self gameState dvs' maxEval alpha beta
  end.

Fixpoint min_layer (rec : GameState → Z → Z → option Z) (self : SmartestBotClient)
    (gameState : GameState) (dvs : list Z) (minEval alpha beta : Z) : option Z :=
  match dvs with
  | [] => Some minEval
  | dir_value :: dvs' =>
      let dir := getDirectionFromValue dir_value in
      if is_valid_move gameState (opponent self) dir then
        let '(newGameState, newOpponent) := movePlayer gameState (opponent self) dir in
        match rec newGameState alpha beta with
        | None => None
        | Some eval =>
            let minEval := Z.min minEval eval in
            let beta := Z.min beta eval in
            if beta <=? alpha then Some minEval
            else min_layer rec self gameState dvs' minEval alpha beta
        end
      else min_layer rec self gameState dvs' minEval alpha beta
  end.

(** [minimax], with one unit of fuel per nested call; [None] is an
    exhausted budget. *)
Fixpoint minimax_fuel (fuel : nat) (self : SmartestBotClient) (gameState : GameState)
    (depth : Z) (maximizingPlayer : bool) (alpha beta : Z) : option Z :=
  match fuel with
  | O => None
  | S fuel' =>
      if (depth =? 0) || game_over self gameState then Some (evaluate self gameState)
      else if maximizingPlayer then
        max_layer (λ g a b, minimax_fuel fuel' self g (wrap_int (depth - 1)) false a b)
                  self gameState dir_values INT_MIN alpha beta
      else
        min_layer (λ g a b, minimax_fuel fuel' self g (wrap_int (depth - 1)) true a b)
                  self gameState dir_values INT_MAX alpha beta
  end.

(** The number of (player, direction) pairs that are legal in a state.
    Every move of the search makes one of them illegal for good, which
    bounds the nesting of [minimax] whatever [depth] is. *)
Definition moves_left (self : SmartestBotClient) (gameState : GameState) : nat :=
  (length (filter (λ dv, is_valid_move gameState (my_player self) (getDirectionFromValue dv) = true) dir_values)
   + length (filter (λ dv, is_valid_move gameState (opponent self) (getDirectionFromValue dv) = true) dir_values))%nat.

(** [minimax] as a total function: the budget [S (moves_left ...)] is
    never exhausted (see [minimax_fuel_minimax]). *)
Definition minimax (self : SmartestBotClient) (gameState : GameState)
    (depth : Z) (maximizingPlayer : bool) (alpha beta : Z) : Z :=
  default 0 (minimax_fuel (S (moves_left self gameState)) self gameState depth maximizingPlayer alpha beta).

(** ** Decision driver *)

Fixpoint decideMove_loop (self : SmartestBotClient) (dvs : list Z)
    (bestScore : Z) (bestMove : Direction) : Direction :=
  match dvs with
  | [] => bestMove
  | dir_value :: dvs' =>
      let dir := getDirectionFromValue dir_value in
      if is_valid_move (state self) (my_player self) dir then
        let '(newGameState, newMyPlayer) := movePlayer (state self) (my_player self) dir in
        let score := minimax self newGameState (MAX_DEPTH - 1) false INT_MIN INT_MAX in
        if score >? bestScore then decideMove_loop self dvs' score dir
        else decideMove_loop self dvs' bestScore bestMove
      else decideMove_loop self dvs' bestScore bestMove
  end.

Definition decideMove (self : SmartestBotClient) : Direction :=
  decideMove_loop self dir_values INT_MIN Up.

(** ** Receiving a snapshot

    [received] is what [connection.receiveGameState()] returned;
    [receive_player] is the body of the loop over its players. *)
Definition receive_player (s : SmartestBotClient) (player : Player) : SmartestBotClient :=
  if decide (name player = bot_name s)
  then {| bot_name := bot_name s; state := state s;
          my_player := player; opponent := opponent s |}
  else {| bot_name := bot_name s; state := state s;
          my_player := my_player s; opponent := player |}.

Definition receiveGameState (self : SmartestBotClient) (received : GameState) : SmartestBotClient :=
  foldl receive_player
        {| bot_name := bot_name self; state := received;
           my_player := my_player self; opponent := opponent self |}
        (players received).

(** ** The driver as a transformer of the bot object

    [movePlayer] takes both arguments by reference.  To tell what a call
    can overwrite, the objects in scope in the loop body of [decideMove]
    are gathered in a [Frame]: the bot itself and the two locals that the
    body declares.  A reference names one of them. *)
Record Frame : Type := mkFrame {
  this : SmartestBotClient;
  newGameState : GameState;
  newMyPlayer : Player
}.

Inductive GameStateRef : Type := ref_state | ref_newGameState.
Inductive PlayerRef : Type := ref_my_player | ref_opponent | ref_newMyPlayer.

Definition load_state (f : Frame) (r : GameStateRef) : GameState :=
  match r with
  | ref_state => state (this f)
  | ref_newGameState => newGameState f
  end.

Definition store_state (f : Frame) (r : GameStateRef) (v : GameState) : Frame :=
  match r with
  | ref_state =>
      {| this := {| bot_name := bot_name (this f); state := v;
                    my_player := my_player (this f); opponent := opponent (this f) |};
         newGameState := newGameState f; newMyPlayer := newMyPlayer f |}
  | ref_newGameState =>
      {| this := this f; newGameState := v; newMyPlayer := newMyPlayer f |}
  end.

Definition load_player (f : Frame) (r : PlayerRef) : Player :=
  match r with
  | ref_my_player => my_player (this f)
  | ref_opponent => opponent (this f)
  | ref_newMyPlayer => newMyPlayer f
  end.

Definition store_player (f : Frame) (r : PlayerRef) (v : Player) : Frame :=
  match r with
  | ref_my_player =>
      {| this := {| bot_name := bot_name (this f); state := state (this f);
                    my_player := v; opponent := opponent (this f) |};
         newGameState := newGameState f; newMyPlayer := newMyPlayer f |}
  | ref_opponent =>
      {| this := {| bot_name := bot_name (this f); state := state (this f);
                    my_player := my_player (this f); opponent := v |};
         newGameState := newGameState f; newMyPlayer := newMyPlayer f |}
  | ref_newMyPlayer =>
      {| this := this f; newGameState := newGameState f; newMyPlayer := v |}
  end.

(** [movePlayer(gameState, player, dir)] on two references: what the call
    writes goes to the objects that the references name. *)
Definition movePlayer_at (gameState : GameStateRef) (player : PlayerRef) (dir : Direction)
    (f : Frame) : Frame :=
  let '(gs', player') := movePlayer (load_state f gameState) (load_player f player) dir in
  store_player (store_state f gameState gs') player player'.

(** [decideMove] threading the bot object.  Each iteration that finds a
    legal direction declares [newGameState] and [newMyPlayer] as copies of
    the fields, and passes these two locals to [movePlayer].  [minimax]
    receives its [GameState] by value and assigns to no field. *)
Fixpoint decideMove_run_loop (self : SmartestBotClient) (dvs : list Z)
    (bestScore : Z) (bestMove : Direction) : Direction * SmartestBotClient :=
  match dvs with
  | [] => (bestMove, self)
  | dir_value :: dvs' =>
      let dir := getDirectionFromValue dir_value in
      if is_valid_move (state self) (my_player self) dir then
        let frame := {| this := self; newGameState := state self;
                        newMyPlayer := my_player self |} in
        let frame := movePlayer_at ref_newGameState ref_newMyPlayer dir frame in
        let score := minimax (this frame) (newGameState frame) (MAX_DEPTH - 1) false
                             INT_MIN INT_MAX in
        if score >? bestScore then decideMove_run_loop (this frame) dvs' score dir
        else decideMove_run_loop (this frame) dvs' bestScore bestMove
      else decideMove_run_loop self dvs' bestScore bestMove
  end.

Definition decideMove_run (self : SmartestBotClient) : Direction * SmartestBotClient :=
  decideMove_run_loop self dir_values INT_MIN Up.

(** ** Notions used to state the properties *)

(** The legal move set of a player, in canonical order (section 4.1). *)
Definition legal_moves (gameState : GameState) (player : Player) : list Direction :=
  filter (λ dir, is_valid_move gameState player dir = true)
         (getDirectionFromValue <$> dir_values).

(** A cell that is inside the grid and free. *)
Definition free_cell (gs : GameState) (p : Vector2i) : Prop :=
  isInsideGrid gs p = true ∧ getGridCell gs p = 0.

(** Two cells that share an edge. *)
Definition adjacent (p q : Vector2i) : Prop :=
  Z.abs (q.1 - p.1) + Z.abs (q.2 - p.2) = 1.

(** The cells that a walk over free cells reaches from [start]; a walk
    starts on a free cell and moves between orthogonally adjacent free
    cells. *)
Inductive reachable (gs : GameState) (start : Vector2i) : Vector2i → Prop :=
  | reachable_start : free_cell gs start → reachable gs start start
  | reachable_step p q :
      reachable gs start p → adjacent p q → free_cell gs q → reachable gs start q.

(** The neighbour that the flood fill pushes for a direction. *)
Definition neighbour (p : Vector2i) (d : Direction) : Vector2i :=
  vadd p (getDirectionVector d).

(** Reachability along the neighbours that the flood fill pushes. *)
Inductive reached (gs : GameState) (start : Vector2i) : Vector2i → Prop :=
  | reached_start : free_cell gs start → reached gs start start
  | reached_step p d :
      reached gs start p → free_cell gs (neighbour p d) → reached gs start (neighbour p d).

(** Entries of the [visited] array that are still false. *)
Fixpoint count_false (column : list bool) : nat :=
  match column with
  | [] => 0
  | b :: column' => (if b then 0 else 1) + count_false column'
  end.

Fixpoint unvisited (visited : list (list bool)) : nat :=
  match visited with
  | [] => 0
  | column :: visited' => count_false column + unvisited visited'
  end.

(** The [visited] array has the dimensions of the grid. *)
Definition visited_shape (gs : GameState) (visited : list (list bool)) : Prop :=
  length visited = Z.to_nat (gridWidth gs) ∧
  Forall (λ column, length column = Z.to_nat (gridHeight gs)) visited.

(** The invariant of the [while] loop of [floodFill]: [seen] is the set of
    cells marked in [visited]. *)
Record flood_inv (gs : GameState) (start : Vector2i) (visited : list (list bool))
    (seen : gset (Z * Z)) (queue : list Vector2i) : Prop := {
  inv_shape : visited_shape gs visited;
  inv_seen : ∀ p, p ∈ seen ↔ visited_get visited p = Some true;
  inv_sound : ∀ p, p ∈ seen → reached gs start p;
  inv_queue : ∀ q, q ∈ queue → free_cell gs q → reached gs start q;
  inv_closed : ∀ p d, p ∈ seen → free_cell gs (neighbour p d) →
               neighbour p d ∈ seen ∨ neighbour p d ∈ queue;
  inv_start : free_cell gs start → start ∈ seen ∨ start ∈ queue;
  inv_count : (size seen + unvisited visited
               = Z.to_nat (gridWidth gs) * Z.to_nat (gridHeight gs))%nat
}.

(** The player record of a given name in a player list, and the record
    of the other player, as the loop of [receiveGameState] selects them:
    a later entry overrides an earlier one. *)
Definition player_named (nm : string) (ps : list Player) : option Player :=
  last (filter (λ p, name p = nm) ps).

Definition player_not_named (nm : string) (ps : list Player) : option Player :=
  last (filter (λ p, name p ≠ nm) ps).

(** The states that a decision hands to [minimax] and [evaluate]: the
    received state, and every state obtained from one of them by a move
    that was legal for the player the search moved. *)
Inductive search_state (self : SmartestBotClient) : GameState → Prop :=
  | search_root : search_state self (state self)
  | search_my_move gs dir :
      search_state self gs →
      is_valid_move gs (my_player self) dir = true →
      search_state self (movePlayer gs (my_player self) dir).1
  | search_opp_move gs dir :
      search_state self gs →
      is_valid_move gs (opponent self) dir = true →
      search_state self (movePlayer gs (opponent self) dir).1.

(** ** Full minimax

    The reference that the pruned search is compared with: the plain
    minimax value of the same game tree, every legal move of every layer
    explored.  [self_children] and [opponent_children] are the successor
    states of a layer; a layer without successor keeps the initial value of
    its accumulator, as the loops of [minimax] do.  The first argument
    bounds the number of plies; a bound of at least [moves_left] is never
    reached (see [full_minimax_stable]). *)
Definition self_children (self : SmartestBotClient) (gs : GameState) : list GameState :=
  (λ dir, (movePlayer gs (my_player self) dir).1) <$> legal_moves gs (my_player self).

Definition opponent_children (self : SmartestBotClient) (gs : GameState) : list GameState :=
  (λ dir, (movePlayer gs (opponent self) dir).1) <$> legal_moves gs (opponent self).

Fixpoint full_minimax (plies : nat) (self : SmartestBotClient) (gs : GameState)
    (depth : Z) (maximizingPlayer : bool) : Z :=
  match plies with
  | O => evaluate self gs
  | S plies' =>
      if (depth =? 0) || game_over self gs then evaluate self gs
      else if maximizingPlayer then
        foldl Z.max INT_MIN
          ((λ g, full_minimax plies' self g (wrap_int (depth - 1)) false) <$> self_children self gs)
      else
        foldl Z.min INT_MAX
          ((λ g, full_minimax plies' self g (wrap_int (depth - 1)) true) <$> opponent_children self gs)
  end.

Definition minimax_unpruned (self : SmartestBotClient) (gs : GameState)
    (depth : Z) (maximizingPlayer : bool) : Z :=
  full_minimax (moves_left self gs) self gs depth maximizingPlayer.

(** What a fail-soft search result [r] tells about the exact value [v]
    for the window ([alpha], [beta]). *)
Definition window_bound (r v alpha beta : Z) : Prop :=
  (r ≤ alpha → v ≤ r) ∧ (beta ≤ r → r ≤ v) ∧ (alpha < r < beta → r = v).

(** The exact values of the successors that a layer loop visits when it
    runs over the direction ranks [dvs]. *)
Definition layer_values (value : GameState → Z) (gs : GameState) (player : Player)
    (dvs : list Z) : list Z :=
  (λ dir, value (movePlayer gs player dir).1)
    <$> filter (λ dir, is_valid_move gs player dir = true) (getDirectionFromValue <$> dvs).

(** The score that [decideMove] gives to a direction. *)
Definition move_score (self : SmartestBotClient) (dir : Direction) : Z :=
  minimax self (movePlayer (state self) (my_player self) dir).1 (MAX_DEPTH - 1) false
          INT_MIN INT_MAX.

(** ** Boards used as concrete instances *)

(** The 3 x 3 board without obstacles, self "a" in the corner (0,0) and
    the opponent "b" in the corner (2,2). *)
Definition board_3x3 : GameState :=
  {| gridWidth := 3; gridHeight := 3; grid := λ _, 0;
     players := [mkPlayer "a" (0, 0); mkPlayer "b" (2, 2)] |}.

(** The bot named "a" after it received a board. *)
Definition bot_on (received : GameState) : SmartestBotClient :=
  receiveGameState
    {| bot_name := "a"; state := received;
       my_player := mkPlayer "" (0, 0); opponent := mkPlayer "" (0, 0) |}
    received.

(** The 1 x 1 board: both players on its only cell, nowhere to go. *)
Definition board_1x1 : GameState :=
  {| gridWidth := 1; gridHeight := 1; grid := λ _, 0;
     players := [mkPlayer "a" (0, 0); mkPlayer "b" (0, 0)] |}.

(** A corridor of three cells, the players at its two ends. *)
Definition board_3x1 : GameState :=
  {| gridWidth := 3; gridHeight := 1; grid := λ _, 0;
     players := [mkPlayer "a" (0, 0); mkPlayer "b" (2, 0)] |}.

(** A 3 x 3 board on which the cells under the two players and the cell
    below self are taken: self, in the corner (0,0), can only go Right;
    the opponent, in the corner (2,2), can go Up or Left. *)
Definition board_corner : GameState :=
  {| gridWidth := 3; gridHeight := 3;
     grid := λ p, if bool_decide (p ∈ [(0, 0); (0, 1); (2, 2)]) then 1 else 0;
     players := [mkPlayer "a" (0, 0); mkPlayer "b" (2, 2)] |}.

(** ** A turn and the main loop *)

(** [sendMove]: the move that the bot hands to [connection.sendMove]. *)
Definition sendMove (self : SmartestBotClient) : Direction := decideMove self.

(** Modelled from the spec: the [Connection] of [api.h], seen from [run] as
    the sequence of snapshots that it delivers, one per turn, while it is
    active; [isActive] is false once none is left.  [run] returns the
    moves it sent, in order, and the bot object as the loop leaves it. *)
Fixpoint run (self : SmartestBotClient) (snapshots : list GameState)
    : list Direction * SmartestBotClient :=
  match snapshots with
  | [] => ([], self)
  | received :: snapshots' =>
      let self := receiveGameState self received in
      let move := sendMove self in
      let '(moves, self) := run self snapshots' in
      (move :: moves, self)
  end.

(** A snapshot that lists a player with the name of the bot and a player
    with another name. *)
Definition lists_both (nm : string) (received : GameState) : Prop :=
  is_Some (player_named nm (players received)) ∧
  is_Some (player_not_named nm (players received)).

(** The bot with the roles of its two players exchanged. *)
Definition swap_players (self : SmartestBotClient) : SmartestBotClient :=
  {| bot_name := bot_name self; state := state self;
     my_player := opponent self; opponent := my_player self |}.

(** ** The area-comparing bot

    [SmarterBotClient] (client_jafar.cpp): the bot that scores each legal
    direction by one flood fill for itself and one per legal direction of
    the opponent, without search. *)
Module Smarter.

Record SmarterBotClient : Type := mkBot {
  name : string;
  state : GameState;
  my_player : Player;
  opponent : Player
}.

Definition is_valid_move (self : SmarterBotClient) (direction : Direction) : bool :=
  let new_pos := vadd (position (my_player self)) (getDirectionVector direction) in
  if negb (isInsideGrid (state self) new_pos) then false
  else if negb (getGridCell (state self) new_pos =? 0) then false
  else true.

(** The loop of [floodFill].  [visited] is a reference parameter: the
    caller sees the marks that the call leaves, so the loop returns the
    array along with the area. *)
Fixpoint floodFill_loop (fuel : nat) (self : SmarterBotClient)
    (visited : list (list bool)) (queue : list Vector2i) (area : Z)
    : outcome (Z * list (list bool)) :=
  match fuel with
  | O => OutOfFuel
  | S fuel' =>
      match queue with
      | [] => Done (area, visited)
      | pos :: queue' =>
          if negb (isInsideGrid (state self) pos) then
            floodFill_loop fuel' self visited queue' area
          else
            match visited_get visited pos with
            | None => OutOfRange
            | Some true => floodFill_loop fuel' self visited queue' area
            | Some false =>
                if negb (getGridCell (state self) pos =? 0) then
                  floodFill_loop fuel' self visited queue' area
                else
                  match visited_mark visited pos with
                  | None => OutOfRange
                  | Some visited' =>
                      floodFill_loop fuel' self visited'
                        (push_neighbours queue' pos) (wrap_int (area + 1))
                  end
            end
      end
  end.

Definition floodFill_run (self : SmarterBotClient) (start_pos : Vector2i)
    (visited : list (list bool)) : outcome (Z * list (list bool)) :=
  floodFill_loop (floodFill_fuel (state self)) self visited [start_pos] 0.

(** [floodFill] as a total function on the arrays that [decideMove]
    passes (see [smarter_floodFill_run_done]). *)
Definition floodFill (self : SmarterBotClient) (start_pos : Vector2i)
    (visited : list (list bool)) : Z * list (list bool) :=
  match floodFill_run self start_pos visited with
  | Done result => result
  | _ => (0, visited)
  end.

(** The inner loop of [decideMove]: one flood fill per legal direction of
    the opponent, each on its own copy [opp_visited] of the array that the
    flood fill of self has marked. *)
Fixpoint opp_area_loop (self : SmarterBotClient) (visited : list (list bool))
    (opp_position : Vector2i) (dvs : list Z) (opp_area : Z) : Z :=
  match dvs with
  | [] => opp_area
  | opp_dir_value :: dvs' =>
      let opp_dir := getDirectionFromValue opp_dir_value in
      let opp_new_pos := vadd opp_position (getDirectionVector opp_dir) in
      if isInsideGrid (state self) opp_new_pos
         && (getGridCell (state self) opp_new_pos =? 0) then
        let opp_visited := visited in
        let '(area, opp_visited) := floodFill self opp_new_pos opp_visited in
        opp_area_loop self visited opp_position dvs' (wrap_int (opp_area + area))
      else opp_area_loop self visited opp_position dvs' opp_area
  end.

(** The outer loop of [decideMove], which fills the vector [moves]. *)
Fixpoint moves_loop (self : SmarterBotClient) (position opp_position : Vector2i)
    (dvs : list Z) (moves : list (Direction * Z)) : list (Direction * Z) :=
  match dvs with
  | [] => moves
  | dir_value :: dvs' =>
      let dir := getDirectionFromValue dir_value in
      if is_valid_move self dir then
        let new_pos := vadd position (getDirectionVector dir) in
        let visited := visited_init (state self) in
        let '(my_area, visited) := floodFill self new_pos visited in
        let opp_area := opp_area_loop self visited opp_position dir_values 0 in
        let score := wrap_int (my_area - opp_area) in
        moves_loop self position opp_position dvs' (moves ++ [(dir, score)])
      else moves_loop self position opp_position dvs' moves
  end.

(** [std::max_element] with the comparison [a.second < b.second]: the
    candidate is replaced only by a strictly larger element. *)
Fixpoint max_element_from (largest : Direction * Z) (rest : list (Direction * Z))
    : Direction * Z :=
  match rest with
  | [] => largest
  | x :: rest' =>
      if largest.2 <? x.2 then max_element_from x rest'
      else max_element_from largest rest'
  end.

(** [decideMove]; [None] is the [exit(1)] taken when [moves] is empty. *)
Definition decideMove (self : SmarterBotClient) : option Direction :=
  let moves := moves_loop self (position (my_player self)) (position (opponent self))
                          dir_values [] in
  match moves with
  | [] => None
  | first :: rest =>
      let best_move := max_element_from first rest in
      Some best_move.1
  end.

(** The score that [decideMove] computes for a direction. *)
Definition move_score (self : SmarterBotClient) (dir : Direction) : Z :=
  let new_pos := vadd (position (my_player self)) (getDirectionVector dir) in
  let '(my_area, visited) := floodFill self new_pos (visited_init (state self)) in
  wrap_int (my_area - opp_area_loop self visited (position (opponent self)) dir_values 0).

End Smarter.

(** ** The template bot

    [CyclesBot] (the third client): it answers every state with one of
    the moves that the state lists as valid, picked with [rand()].  The
    types [cycles::Move] and [cycles::GameState] of its connection header
    are not part of the sources at hand: [Move] is a parameter, [zero]
    stands for the move written [{0, 0}], and a state is the two members
    that the bot reads. *)
Module CyclesBot.

Record GameState (Move : Type) : Type := mkGameState {
  gameOver : bool;
  validMoves : list Move
}.
Arguments mkGameState {Move} gameOver validMoves.
Arguments gameOver {Move} g.
Arguments validMoves {Move} g.

(** [determineNextMove]; [random] is the value that the call of [rand()]
    returns, which is not negative.  The index is unchecked in the source:
    an access outside [validMoves] is [OutOfRange]. *)
Definition determineNextMove {Move : Type} (zero : Move) (random : nat)
    (state : GameState Move) : outcome Move :=
  if negb (bool_decide (validMoves state = [])) then
    match validMoves state !! (random mod length (validMoves state))%nat with
    | Some move => Done move
    | None => OutOfRange
    end
  else Done zero.

(** [play] on the states that the connection delivers; [rand] gives the
    result of each call of [rand()] by its rank and [calls] counts the
    calls made so far.  The result lists the moves sent, in order. *)
Fixpoint play {Move : Type} (zero : Move) (rand : nat → nat) (calls : nat)
    (states : list (GameState Move)) : outcome (list Move) :=
  match states with
  | [] => Done []
  | state :: states' =>
      if gameOver state then Done []
      else
        let calls' := if negb (bool_decide (validMoves state = [])) then S calls else calls in
        match determineNextMove zero (rand calls) state with
        | Done move =>
            match play zero rand calls' states' with
            | Done moves => Done (move :: moves)
            | OutOfRange => OutOfRange
            | OutOfFuel => OutOfFuel
            end
        | OutOfRange => OutOfRange
        | OutOfFuel => OutOfFuel
        end
  end.

End CyclesBot.

(** * Properties *)

(** ** Machine integers *)

Lemma wrap_int_range z : INT_MIN ≤ wrap_int z ≤ INT_MAX.
Proof.
  unfold wrap_int, INT_MIN, INT_MAX.
  pose proof (Z.mod_pos_bound (z + 2147483648) 4294967296). lia.
Qed.

Lemma wrap_int_id z : INT_MIN ≤ z ≤ INT_MAX → wrap_int z = z.
Proof.
  unfold wrap_int, INT_MIN, INT_MAX. intros Hz.
  rewrite Z.mod_small by lia. lia.
Qed.

Lemma wrap_int_succ a k : wrap_int (wrap_int (a + 1) + k) = wrap_int (a + (1 + k)).
Proof.
  unfold wrap_int.
  replace ((a + 1 + 2147483648) mod 4294967296 - 2147483648 + k + 2147483648)
    with ((a + 1 + 2147483648) mod 4294967296 + k) by lia.
  rewrite Zplus_mod_idemp_l. f_equal. f_equal. lia.
Qed.

(** ** Directions *)

Lemma directions_enumerated d : d ∈ getDirectionFromValue <$> dir_values.
Proof. destruct d; cbn; set_solver. Qed.

Lemma dir_value_of d : ∃ dv, dv ∈ dir_values ∧ getDirectionFromValue dv = d.
Proof.
  destruct d; [exists 0 | exists 1 | exists 2 | exists 3];
    (split; [unfold dir_values; set_solver | reflexivity]).
Qed.

Lemma adjacent_iff p q :
  adjacent p q ↔
  ∃ d, q = (p.1 + (getDirectionVector d).1, p.2 + (getDirectionVector d).2).
Proof.
  destruct p as [px py], q as [qx qy]. unfold adjacent. cbn. split.
  - intros H.
    assert ((qx = px ∧ qy = py - 1) ∨ (qx = px ∧ qy = py + 1) ∨
            (qx = px - 1 ∧ qy = py) ∨ (qx = px + 1 ∧ qy = py)) as Hc by lia.
    destruct Hc as [[-> ->]|[[-> ->]|[[-> ->]|[-> ->]]]].
    + exists Up. cbn. f_equal; lia.
    + exists Down. cbn. f_equal; lia.
    + exists Left. cbn. f_equal; lia.
    + exists Right. cbn. f_equal; lia.
  - intros [d Hd]. destruct d; cbn in Hd; inversion Hd; subst; lia.
Qed.

(** ** The visited array *)

Lemma inside_bounds gs p :
  isInsideGrid gs p = true ↔ (0 ≤ p.1 < gridWidth gs ∧ 0 ≤ p.2 < gridHeight gs).
Proof. unfold isInsideGrid. rewrite !andb_true_iff. lia. Qed.

Lemma visited_shape_init gs : visited_shape gs (visited_init gs).
Proof.
  unfold visited_shape, visited_init. split.
  - by rewrite length_replicate.
  - apply Forall_replicate. by rewrite length_replicate.
Qed.

Lemma visited_get_init gs p : visited_get (visited_init gs) p ≠ Some true.
Proof.
  unfold visited_get, visited_init.
  destruct (_ || _); [done |].
  destruct (replicate _ _ !! _) as [column|] eqn:Hc; [| done].
  apply lookup_replicate in Hc as [-> _].
  intros [Hb _]%lookup_replicate. done.
Qed.

Lemma visited_get_inside gs visited p :
  visited_shape gs visited → isInsideGrid gs p = true →
  is_Some (visited_get visited p).
Proof.
  intros [Hlen Hcols] [Hx Hy]%inside_bounds. unfold visited_get.
  rewrite (proj2 (Z.ltb_ge p.1 0)), (proj2 (Z.ltb_ge p.2 0)) by lia. cbn.
  destruct (visited !! Z.to_nat p.1) as [column|] eqn:Hc.
  - apply lookup_lt_is_Some.
    rewrite Forall_lookup in Hcols. rewrite (Hcols _ _ Hc). lia.
  - apply lookup_ge_None in Hc. lia.
Qed.

Lemma count_false_mark column j :
  column !! j = Some false →
  S (count_false (<[j:=true]> column)) = count_false column.
Proof.
  revert j. induction column as [|b column IH]; intros [|j] Hj; try done.
  - cbn in Hj. injection Hj as ->. reflexivity.
  - change (<[S j:=true]> (b :: column)) with (b :: <[j:=true]> column).
    cbn [count_false]. rewrite <- (IH j Hj). lia.
Qed.

Lemma unvisited_mark visited i column column' :
  visited !! i = Some column →
  S (count_false column') = count_false column →
  S (unvisited (<[i:=column']> visited)) = unvisited visited.
Proof.
  revert i. induction visited as [|c visited IH]; intros [|i] Hi Hc; try done.
  - cbn in Hi. injection Hi as ->. cbn. lia.
  - change (<[S i:=column']> (c :: visited)) with (c :: <[i:=column']> visited).
    cbn [unvisited]. rewrite <- (IH i Hi Hc). lia.
Qed.

Lemma visited_mark_inside gs visited p :
  visited_shape gs visited → isInsideGrid gs p = true →
  visited_get visited p = Some false →
  ∃ visited', visited_mark visited p = Some visited' ∧
    visited_shape gs visited' ∧
    visited_get visited' p = Some true ∧
    (∀ q, q ≠ p → visited_get visited' q = visited_get visited q) ∧
    S (unvisited visited') = unvisited visited.
Proof.
  intros [Hlen Hcols] [Hx Hy]%inside_bounds. unfold visited_get, visited_mark.
  rewrite (proj2 (Z.ltb_ge p.1 0)), (proj2 (Z.ltb_ge p.2 0)) by lia. cbn.
  destruct (visited !! Z.to_nat p.1) as [column|] eqn:Hc; [| done].
  intros Hp. pose proof (lookup_lt_Some _ _ _ Hp) as Hlt.
  pose proof (lookup_lt_Some _ _ _ Hc) as Hltc.
  rewrite decide_True by done. eexists. split; [reflexivity |].
  split; [| split; [| split]].
  - split; [by rewrite length_insert |].
    apply Forall_insert; [done |]. rewrite length_insert.
    rewrite Forall_lookup in Hcols. by apply (Hcols _ _ Hc).
  - rewrite list_lookup_insert_eq by done. by rewrite list_lookup_insert_eq.
  - intros q Hq. destruct ((q.1 <? 0) || (q.2 <? 0)) eqn:Hneg; [done |].
    apply orb_false_iff in Hneg as [Hq1%Z.ltb_ge Hq2%Z.ltb_ge].
    destruct (decide (Z.to_nat q.1 = Z.to_nat p.1)) as [Heq|Hne].
    + rewrite Heq, list_lookup_insert_eq, Hc by done.
      rewrite list_lookup_insert_ne; [done |].
      intros Heq2. apply Hq. destruct p, q; cbn in *. f_equal; lia.
    + by rewrite list_lookup_insert_ne.
  - eapply unvisited_mark; [done |]. by apply count_false_mark.
Qed.

Lemma unvisited_init gs :
  unvisited (visited_init gs) = (Z.to_nat (gridWidth gs) * Z.to_nat (gridHeight gs))%nat.
Proof.
  unfold visited_init.
  assert (∀ n, count_false (replicate n false) = n) as Hcol.
  { induction n as [|n IH]; cbn; [done | by rewrite IH]. }
  induction (Z.to_nat (gridWidth gs)) as [|w IH]; cbn; [done |].
  rewrite IH, Hcol. lia.
Qed.

Lemma unvisited_zero visited :
  (∀ i j column b, visited !! i = Some column → column !! j = Some b → b = true) →
  unvisited visited = 0%nat.
Proof.
  induction visited as [|c visited IH]; intros H; [done |]. cbn.
  rewrite IH by (intros i j column b Hi; apply (H (S i) j column b Hi)).
  assert (count_false c = 0%nat) as ->; [| done].
  specialize (H 0%nat). cbn in H.
  assert (∀ j b, c !! j = Some b → b = true) as Hc by (intros j b; by apply H).
  clear H IH. induction c as [|b c IHc]; [done |]. cbn.
  rewrite (Hc 0%nat b eq_refl). cbn. apply IHc.
  intros j b'. apply (Hc (S j)).
Qed.

(** ** The flood fill loop *)

Lemma push_neighbours_eq queue pos :
  push_neighbours queue pos = queue ++ (neighbour pos <$> [Up; Down; Left; Right]).
Proof. unfold push_neighbours. cbn. by rewrite <- !app_assoc. Qed.

Lemma elem_of_push_neighbours q queue pos :
  q ∈ push_neighbours queue pos ↔ q ∈ queue ∨ ∃ d, q = neighbour pos d.
Proof.
  rewrite push_neighbours_eq, elem_of_app, list_elem_of_fmap. split.
  - intros [H | (d & -> & _)]; eauto.
  - intros [H | (d & ->)]; [by left | right].
    exists d. split; [done |]. destruct d; set_solver.
Qed.

Lemma free_cell_reached gs start p : reached gs start p → free_cell gs p.
Proof. by destruct 1. Qed.

Section FloodLoop.
Variable gs : GameState.
Variable start : Vector2i.

(** An iteration that drops the head of the queue without marking it. *)
Lemma flood_inv_skip visited seen pos queue :
  flood_inv gs start visited seen (pos :: queue) →
  (free_cell gs pos → pos ∈ seen) →
  flood_inv gs start visited seen queue.
Proof.
  intros [] Hpos. split; try done.
  - intros q Hq. apply inv_queue0. by right.
  - intros p d Hp Hfree.
    destruct (inv_closed0 p d Hp Hfree) as [? | [Heq | ?]%elem_of_cons];
      [by left | rewrite Heq in *; left; by apply Hpos | by right].
  - intros Hfree.
    destruct (inv_start0 Hfree) as [? | [Heq | ?]%elem_of_cons];
      [by left | rewrite Heq in *; left; by apply Hpos | by right].
Qed.

(** An iteration that marks the head of the queue and pushes its four
    neighbours. *)
Lemma flood_inv_mark visited visited' seen pos queue :
  flood_inv gs start visited seen (pos :: queue) →
  free_cell gs pos →
  visited_get visited pos = Some false →
  visited_shape gs visited' →
  visited_get visited' pos = Some true →
  (∀ q, q ≠ pos → visited_get visited' q = visited_get visited q) →
  S (unvisited visited') = unvisited visited →
  (pos ∉ seen) ∧
  flood_inv gs start visited' ({[pos]} ∪ seen) (push_neighbours queue pos).
Proof.
  intros [] Hfree Hget Hshape Hget' Hframe Hcount.
  assert (pos ∉ seen) as Hnew.
  { rewrite inv_seen0, Hget. done. }
  assert (reached gs start pos) as Hreach.
  { apply inv_queue0; [by left | done]. }
  split; [done |]. split; try done.
  - intros p. rewrite elem_of_union, elem_of_singleton.
    destruct (decide (p = pos)) as [-> | Hne]; [split; [done | by left] |].
    rewrite Hframe, <- inv_seen0 by done. split; [by intros [? | ?] | by right].
  - intros p [->%elem_of_singleton | Hp]%elem_of_union; auto.
  - intros q [Hq | [d ->]]%elem_of_push_neighbours Hq'.
    + apply inv_queue0; [by right | done].
    + by apply reached_step.
  - intros p d Hp Hq. rewrite elem_of_push_neighbours.
    apply elem_of_union in Hp as [->%elem_of_singleton | Hp]; [by eauto |].
    destruct (inv_closed0 p d Hp Hq) as [? | [Heq | ?]%elem_of_cons];
      [left; apply elem_of_union; by right
      | left; apply elem_of_union; left; by apply elem_of_singleton
      | right; by left].
  - intros Hs. rewrite elem_of_push_neighbours.
    destruct (inv_start0 Hs) as [? | [Heq | ?]%elem_of_cons];
      [left; apply elem_of_union; by right
      | left; apply elem_of_union; left; by apply elem_of_singleton
      | right; by left].
  - rewrite size_union by (by apply disjoint_singleton_l).
    rewrite size_singleton. lia.
Qed.

Lemma floodFill_loop_spec fuel : ∀ visited seen queue area,
  flood_inv gs start visited seen queue →
  (4 * unvisited visited + length queue < fuel)%nat →
  INT_MIN ≤ area ≤ INT_MAX →
  ∃ visited' seen',
    floodFill_loop fuel gs visited queue area
      = Done (wrap_int (area + (Z.of_nat (size seen') - Z.of_nat (size seen)))) ∧
    flood_inv gs start visited' seen' [].
Proof.
  induction fuel as [|fuel IH]; intros visited seen queue area Hinv Hfuel Harea;
    [lia |].
  destruct queue as [|pos queue]; cbn [floodFill_loop].
  { exists visited, seen. split; [| done].
    rewrite Z.sub_diag, Z.add_0_r. by rewrite wrap_int_id. }
  cbn [length] in Hfuel.
  destruct (isInsideGrid gs pos) eqn:Hin; cbn [negb].
  2: { apply IH; [| lia | done].
       eapply flood_inv_skip; [done |]. intros [? _]. congruence. }
  destruct (visited_get_inside gs visited pos (inv_shape _ _ _ _ _ Hinv) Hin)
    as [b Hget].
  rewrite Hget. destruct b.
  { apply IH; [| lia | done].
    eapply flood_inv_skip; [done |]. intros _. by apply (inv_seen _ _ _ _ _ Hinv). }
  destruct (getGridCell gs pos =? 0) eqn:Hcell; cbn [negb].
  2: { apply IH; [| lia | done].
       eapply flood_inv_skip; [done |]. intros [_ ?]. lia. }
  apply Z.eqb_eq in Hcell.
  destruct (visited_mark_inside gs visited pos (inv_shape _ _ _ _ _ Hinv) Hin Hget)
    as (visited' & -> & Hshape & Hget' & Hframe & Hcount).
  destruct (flood_inv_mark visited visited' seen pos queue) as [Hnew Hinv'];
    try done.
  destruct (IH visited' ({[pos]} ∪ seen) (push_neighbours queue pos)
              (wrap_int (area + 1)) Hinv') as (visited'' & seen' & -> & Hfinal).
  { rewrite push_neighbours_eq, length_app. cbn [length fmap list_fmap]. lia. }
  { apply wrap_int_range. }
  exists visited'', seen'. split; [| done].
  rewrite wrap_int_succ. do 2 f_equal.
  rewrite size_union, size_singleton by (by apply disjoint_singleton_l). lia.
Qed.

Lemma flood_inv_init : flood_inv gs start (visited_init gs) ∅ [start].
Proof.
  split.
  - apply visited_shape_init.
  - intros p. split; [set_solver |]. intros H. by apply visited_get_init in H.
  - set_solver.
  - intros q ->%list_elem_of_singleton Hq. by apply reached_start.
  - set_solver.
  - intros _. right. by left.
  - rewrite size_empty, unvisited_init. done.
Qed.

Lemma flood_inv_final visited seen :
  flood_inv gs start visited seen [] → ∀ p, p ∈ seen ↔ reached gs start p.
Proof.
  intros [] p. split; [by auto |].
  induction 1 as [Hs | p d _ IHp Hfree].
  - destruct (inv_start0 Hs) as [? | ?%elem_of_nil]; done.
  - destruct (inv_closed0 p d IHp Hfree) as [? | ?%elem_of_nil]; done.
Qed.

(** The flood fill always completes, without an access outside
    [visited], and counts the cells it can reach. *)
Lemma floodFill_run_spec :
  ∃ visited seen,
    floodFill_run gs start = Done (wrap_int (Z.of_nat (size seen))) ∧
    flood_inv gs start visited seen [] ∧
    (∀ p, p ∈ seen ↔ reached gs start p).
Proof.
  destruct (floodFill_loop_spec (floodFill_fuel gs) (visited_init gs) ∅ [start] 0
              flood_inv_init) as (visited & seen & Hrun & Hinv).
  { rewrite unvisited_init. unfold floodFill_fuel. cbn [length]. lia. }
  { unfold INT_MIN, INT_MAX. lia. }
  exists visited, seen. split; [| split; [done |]].
  - unfold floodFill_run. rewrite Hrun, size_empty. f_equal. f_equal. lia.
  - by apply flood_inv_final with visited.
Qed.
End FloodLoop.

(** No budget, however small, lets the loop index [visited] outside its
    bounds: every access follows a successful [isInsideGrid] test. *)
Lemma floodFill_loop_in_range gs fuel : ∀ visited queue area,
  visited_shape gs visited →
  floodFill_loop fuel gs visited queue area ≠ OutOfRange.
Proof.
  induction fuel as [|fuel IH]; intros visited queue area Hshape; [done |].
  destruct queue as [|pos queue]; cbn [floodFill_loop]; [done |].
  destruct (isInsideGrid gs pos) eqn:Hin; cbn [negb]; [| by apply IH].
  destruct (visited_get_inside gs visited pos Hshape Hin) as [b Hget].
  rewrite Hget. destruct b; [by apply IH |].
  destruct (negb _); [by apply IH |].
  destruct (visited_mark_inside gs visited pos Hshape Hin Hget)
    as (visited' & -> & Hshape' & _).
  by apply IH.
Qed.

(** ** Reachability on the grid *)

Lemma neighbour_inside gs p d :
  gridWidth gs ≤ INT_MAX → gridHeight gs ≤ INT_MAX →
  isInsideGrid gs p = true →
  neighbour p d = (p.1 + (getDirectionVector d).1, p.2 + (getDirectionVector d).2).
Proof.
  intros Hw Hh [Hx Hy]%inside_bounds. unfold neighbour, vadd.
  unfold INT_MAX in *.
  f_equal; apply wrap_int_id; unfold INT_MIN, INT_MAX; destruct d; cbn; lia.
Qed.

Lemma reached_reachable gs start p :
  gridWidth gs ≤ INT_MAX → gridHeight gs ≤ INT_MAX →
  reached gs start p ↔ reachable gs start p.
Proof.
  intros Hw Hh. split.
  - induction 1 as [Hs | p d Hp IH Hfree]; [by apply reachable_start |].
    apply reachable_step with p; [done | | done].
    apply adjacent_iff. exists d. apply (neighbour_inside gs); [done | done |].
    by apply (free_cell_reached gs start).
  - induction 1 as [Hs | p q Hp IH [d Hd]%adjacent_iff Hfree];
      [by apply reached_start |].
    rewrite <- (neighbour_inside gs p d) in Hd;
      [| done | done | by apply (free_cell_reached gs start)].
    subst q. by apply reached_step.
Qed.

Lemma free_grid_reachable gs start :
  (∀ p, isInsideGrid gs p = true → getGridCell gs p = 0) →
  isInsideGrid gs start = true →
  ∀ p, isInsideGrid gs p = true → reachable gs start p.
Proof.
  intros Hfree Hstart.
  assert (∀ n : nat, ∀ p, isInsideGrid gs p = true →
            Z.abs (p.1 - start.1) + Z.abs (p.2 - start.2) = Z.of_nat n →
            reachable gs start p) as Hdist.
  { apply inside_bounds in Hstart.
    induction n as [|n IH]; intros [px py] Hp Hn; cbn in Hn.
    - assert (start = (px, py)) as Heq by (destruct start; cbn in *; f_equal; lia).
      rewrite Heq. apply reachable_start. split; [done | by apply Hfree].
    - pose proof Hp as Hp'. apply inside_bounds in Hp'. cbn in Hp'.
      assert (∃ q, isInsideGrid gs q = true ∧ adjacent q (px, py) ∧
                   Z.abs (q.1 - start.1) + Z.abs (q.2 - start.2) = Z.of_nat n)
        as (q & Hq & Hadj & Hqn).
      { destruct (Z.lt_trichotomy px start.1) as [Hlt | [Heq | Hgt]].
        - exists (px + 1, py). rewrite inside_bounds. unfold adjacent. cbn. lia.
        - destruct (Z.lt_trichotomy py start.2) as [Hlt | [Heq' | Hgt]].
          + exists (px, py + 1). rewrite inside_bounds. unfold adjacent. cbn. lia.
          + lia.
          + exists (px, py - 1). rewrite inside_bounds. unfold adjacent. cbn. lia.
        - exists (px - 1, py). rewrite inside_bounds. unfold adjacent. cbn. lia. }
      apply reachable_step with q; [by apply IH | done |].
      split; [done | by apply Hfree]. }
  intros p Hp. by apply (Hdist (Z.to_nat (Z.abs (p.1 - start.1) + Z.abs (p.2 - start.2)))); [| lia].
Qed.

Lemma isolated_reachable gs start p :
  (∀ q, adjacent start q → ¬ free_cell gs q) →
  reachable gs start p → p = start.
Proof.
  intros Hiso. induction 1 as [| p q _ -> Hadj Hq]; [done |].
  by destruct (Hiso q).
Qed.

(** ** What the flood fill returns *)

Lemma floodFill_run_floodFill gs start :
  floodFill_run gs start = Done (floodFill gs start).
Proof.
  destruct (floodFill_run_spec gs start) as (visited & seen & Hrun & _).
  unfold floodFill. by rewrite Hrun.
Qed.

Lemma flood_inv_size gs start visited seen queue :
  0 ≤ gridWidth gs → 0 ≤ gridHeight gs →
  flood_inv gs start visited seen queue →
  Z.of_nat (size seen) + Z.of_nat (unvisited visited) = gridWidth gs * gridHeight gs.
Proof.
  intros Hw Hh Hinv. pose proof (inv_count _ _ _ _ _ Hinv) as Hc.
  rewrite <- Nat2Z.inj_add, Hc, Nat2Z.inj_mul, !Z2Nat.id; done.
Qed.

Lemma floodFill_run_reachable gs start :
  gridWidth gs * gridHeight gs ≤ INT_MAX →
  free_cell gs start →
  ∃ visited seen,
    floodFill_run gs start = Done (Z.of_nat (size seen)) ∧
    flood_inv gs start visited seen [] ∧
    (∀ p, p ∈ seen ↔ reachable gs start p).
Proof.
  intros Hsize [Hin Hcell]. pose proof Hin as [Hx Hy]%inside_bounds.
  assert (gridWidth gs ≤ INT_MAX ∧ gridHeight gs ≤ INT_MAX) as [Hw Hh] by nia.
  destruct (floodFill_run_spec gs start) as (visited & seen & Hrun & Hinv & Hseen).
  exists visited, seen. split; [| split; [done |]].
  - rewrite Hrun. f_equal. apply wrap_int_id.
    pose proof (flood_inv_size gs start visited seen [] ltac:(lia) ltac:(lia) Hinv).
    unfold INT_MIN. lia.
  - intros p. rewrite Hseen. by apply reached_reachable.
Qed.

(** C4: from a free cell inside the grid, [floodFill] returns the number of
    free cells that a walk over orthogonally adjacent free cells reaches,
    each counted once and the start included; every counted cell is inside
    the grid and free; on a grid without blocked cells the result is
    width times height, and on a free cell whose neighbours are all
    blocked or outside it is 1. *)
Theorem floodFill_counts_reachable gs start :
  gridWidth gs * gridHeight gs ≤ INT_MAX →
  free_cell gs start →
  (∃ seen : gset (Z * Z),
     (∀ p, p ∈ seen ↔ reachable gs start p) ∧
     start ∈ seen ∧
     (∀ p, p ∈ seen → isInsideGrid gs p = true ∧ getGridCell gs p = 0) ∧
     floodFill_run gs start = Done (Z.of_nat (size seen))) ∧
  ((∀ p, isInsideGrid gs p = true → getGridCell gs p = 0) →
   floodFill gs start = gridWidth gs * gridHeight gs) ∧
  ((∀ q, adjacent start q → ¬ free_cell gs q) → floodFill gs start = 1).
Proof.
  intros Hsize Hstart.
  destruct (floodFill_run_reachable gs start Hsize Hstart)
    as (visited & seen & Hrun & Hinv & Hseen).
  assert (floodFill gs start = Z.of_nat (size seen)) as Hval.
  { unfold floodFill. by rewrite Hrun. }
  split; [| split].
  - exists seen. split; [done |]. split; [| split; [| done]].
    + apply Hseen. by apply reachable_start.
    + intros p Hp%Hseen. destruct Hp as [Hs | ? ? _ _ Hq]; done.
  - intros Hfree. rewrite Hval.
    pose proof Hstart as [[Hx Hy]%inside_bounds _].
    rewrite <- (flood_inv_size gs start visited seen []) by (done || lia).
    rewrite unvisited_zero; [lia |].
    intros i j column b Hi Hj.
    destruct (inv_shape _ _ _ _ _ Hinv) as [Hlen Hcols].
    rewrite Forall_lookup in Hcols.
    pose proof (lookup_lt_Some _ _ _ Hi) as Hilt.
    pose proof (lookup_lt_Some _ _ _ Hj) as Hjlt.
    rewrite (Hcols _ _ Hi) in Hjlt.
    assert (isInsideGrid gs (Z.of_nat i, Z.of_nat j) = true) as Hin.
    { apply inside_bounds. cbn. lia. }
    assert ((Z.of_nat i, Z.of_nat j) ∈ seen) as Hmem.
    { apply Hseen, free_grid_reachable; [done | by destruct Hstart | done]. }
    apply (inv_seen _ _ _ _ _ Hinv) in Hmem. unfold visited_get in Hmem. cbn in Hmem.
    rewrite (proj2 (Z.ltb_ge _ 0)), (proj2 (Z.ltb_ge _ 0)) in Hmem by lia.
    cbn in Hmem. rewrite !Nat2Z.id, Hi, Hj in Hmem. by injection Hmem.
  - intros Hiso. rewrite Hval.
    assert (seen = {[start]}) as ->; [| by rewrite size_singleton].
    apply set_eq. intros p. rewrite elem_of_singleton, Hseen. split.
    + by apply isolated_reachable.
    + intros ->. by apply reachable_start.
Qed.

Lemma floodFill_counts_reachable_witness :
  gridWidth board_3x3 * gridHeight board_3x3 ≤ INT_MAX ∧
  free_cell board_3x3 (0, 0) ∧
  floodFill board_3x3 (0, 0) = gridWidth board_3x3 * gridHeight board_3x3.
Proof.
  assert (gridWidth board_3x3 * gridHeight board_3x3 ≤ INT_MAX) as Hsize
    by (by vm_compute).
  assert (free_cell board_3x3 (0, 0)) as Hstart by (by split).
  split; [done |]. split; [done |].
  by apply (floodFill_counts_reachable board_3x3 (0, 0) Hsize Hstart).
Defined.

(** C10: on a grid whose dimensions are not negative, so that [visited]
    is built, [floodFill] completes from every start position; its loop
    never indexes [visited] outside its bounds, whatever the iteration
    budget; and from a start cell that is outside the grid or blocked it
    returns 0. *)
Theorem floodFill_total gs start :
  0 ≤ gridWidth gs → 0 ≤ gridHeight gs →
  (∃ area, floodFill_run gs start = Done area) ∧
  (∀ fuel, floodFill_loop fuel gs (visited_init gs) [start] 0 ≠ OutOfRange) ∧
  (isInsideGrid gs start = false ∨ getGridCell gs start ≠ 0 →
   floodFill_run gs start = Done 0).
Proof.
  intros _ _. split; [| split].
  - exists (floodFill gs start). apply floodFill_run_floodFill.
  - intros fuel. apply floodFill_loop_in_range, visited_shape_init.
  - intros Hstart.
    destruct (floodFill_run_spec gs start) as (visited & seen & Hrun & _ & Hseen).
    assert (seen = ∅) as ->; [| by rewrite Hrun, size_empty].
    apply set_eq. intros p. rewrite Hseen. split; [| set_solver].
    intros Hp. exfalso.
    assert (free_cell gs start) as [Hin Hcell].
    { clear Hstart. induction Hp; done. }
    destruct Hstart; congruence.
Qed.

Lemma floodFill_total_witness :
  0 ≤ gridWidth board_3x3 ∧ 0 ≤ gridHeight board_3x3 ∧
  (isInsideGrid board_3x3 (5, 0) = false ∨ getGridCell board_3x3 (5, 0) ≠ 0) ∧
  floodFill_run board_3x3 (5, 0) = Done 0.
Proof.
  assert (0 ≤ 3) as Hdim by (by vm_compute).
  assert (isInsideGrid board_3x3 (5, 0) = false ∨ getGridCell board_3x3 (5, 0) ≠ 0)
    as Hstart by (by left).
  split; [exact Hdim |]. split; [exact Hdim |]. split; [exact Hstart |].
  exact (proj2 (proj2 (floodFill_total board_3x3 (5, 0) Hdim Hdim)) Hstart).
Defined.

(** ** Move legality *)

(** The [int] addition of a unit vector either is exact or leaves the
    grid on both readings. *)
Lemma vadd_exact_or_outside gs pos d :
  INT_MIN ≤ pos.1 ≤ INT_MAX → INT_MIN ≤ pos.2 ≤ INT_MAX →
  gridWidth gs ≤ INT_MAX → gridHeight gs ≤ INT_MAX →
  let dest := (pos.1 + (getDirectionVector d).1, pos.2 + (getDirectionVector d).2) in
  vadd pos (getDirectionVector d) = dest ∨
  (isInsideGrid gs (vadd pos (getDirectionVector d)) = false ∧
   isInsideGrid gs dest = false).
Proof.
  destruct pos as [x y]. cbn [fst snd]. intros Hx Hy Hw Hh. cbn zeta.
  destruct (decide (INT_MIN ≤ x + (getDirectionVector d).1 ≤ INT_MAX ∧
                    INT_MIN ≤ y + (getDirectionVector d).2 ≤ INT_MAX))
    as [[H1 H2] | Hout].
  - left. unfold vadd. cbn [fst snd]. by rewrite !wrap_int_id.
  - right. unfold isInsideGrid, vadd. cbn [fst snd] in *.
    unfold INT_MIN, INT_MAX in *.
    destruct d; cbn [getDirectionVector fst snd] in *.
    + assert (y = -2147483648) as -> by lia.
      replace (wrap_int (-2147483648 + -1)) with 2147483647 by reflexivity.
      split; rewrite !andb_false_iff, !Z.leb_gt, !Z.ltb_ge; lia.
    + assert (y = 2147483647) as -> by lia.
      replace (wrap_int (2147483647 + 1)) with (-2147483648) by reflexivity.
      split; rewrite !andb_false_iff, !Z.leb_gt, !Z.ltb_ge; lia.
    + assert (x = -2147483648) as -> by lia.
      replace (wrap_int (-2147483648 + -1)) with 2147483647 by reflexivity.
      split; rewrite !andb_false_iff, !Z.leb_gt, !Z.ltb_ge; lia.
    + assert (x = 2147483647) as -> by lia.
      replace (wrap_int (2147483647 + 1)) with (-2147483648) by reflexivity.
      split; rewrite !andb_false_iff, !Z.leb_gt, !Z.ltb_ge; lia.
Qed.

Lemma is_valid_move_true gs player dir :
  is_valid_move gs player dir = true ↔
  free_cell gs (neighbour (position player) dir).
Proof.
  unfold is_valid_move, free_cell, neighbour.
  destruct (isInsideGrid gs _); cbn; [| by split; [| intros [? _]]].
  destruct (Z.eqb_spec (getGridCell gs (vadd (position player) (getDirectionVector dir))) 0);
    cbn; [done | by split; [| intros [_ ?]]].
Qed.

(** C5: [is_valid_move] returns true exactly when the cell at the player's
    position plus the unit vector of the direction is inside the grid and
    free; it returns false when that cell is outside the grid, and when it
    is blocked. *)
Theorem is_valid_move_iff gs player dir :
  INT_MIN ≤ (position player).1 ≤ INT_MAX →
  INT_MIN ≤ (position player).2 ≤ INT_MAX →
  gridWidth gs ≤ INT_MAX → gridHeight gs ≤ INT_MAX →
  let dest := ((position player).1 + (getDirectionVector dir).1,
               (position player).2 + (getDirectionVector dir).2) in
  (is_valid_move gs player dir = true ↔
   isInsideGrid gs dest = true ∧ getGridCell gs dest = 0) ∧
  (isInsideGrid gs dest = false → is_valid_move gs player dir = false) ∧
  (getGridCell gs dest ≠ 0 → is_valid_move gs player dir = false).
Proof.
  intros Hx Hy Hw Hh dest.
  assert (is_valid_move gs player dir = true ↔
          isInsideGrid gs dest = true ∧ getGridCell gs dest = 0) as Hiff.
  { rewrite is_valid_move_true. unfold free_cell, neighbour.
    destruct (vadd_exact_or_outside gs (position player) dir Hx Hy Hw Hh)
      as [-> | [H1 H2]]; [done |].
    fold dest in H2. rewrite H1, H2. by split; intros [? _]. }
  split; [done |].
  split; intros H; apply not_true_is_false; rewrite Hiff; intros [? ?]; congruence.
Qed.

Lemma is_valid_move_iff_witness :
  INT_MIN ≤ (position (mkPlayer "a" (0, 0))).1 ≤ INT_MAX ∧
  INT_MIN ≤ (position (mkPlayer "a" (0, 0))).2 ≤ INT_MAX ∧
  gridWidth board_3x3 ≤ INT_MAX ∧ gridHeight board_3x3 ≤ INT_MAX ∧
  is_valid_move board_3x3 (mkPlayer "a" (0, 0)) Up = false.
Proof.
  assert (INT_MIN ≤ 0 ≤ INT_MAX) as Hr by (by vm_compute).
  assert (3 ≤ INT_MAX) as Hd by (by vm_compute).
  split; [exact Hr |]. split; [exact Hr |]. split; [exact Hd |]. split; [exact Hd |].
  exact (proj1 (proj2 (is_valid_move_iff board_3x3 (mkPlayer "a" (0, 0)) Up Hr Hr Hd Hd))
               eq_refl).
Defined.

Lemma legal_moves_nil gs player :
  legal_moves gs player = [] ↔ ∀ dir, is_valid_move gs player dir = false.
Proof.
  unfold legal_moves. split.
  - intros Hnil dir. apply not_true_is_false. intros Hv.
    assert (dir ∈ filter (λ dir, is_valid_move gs player dir = true)
                         (getDirectionFromValue <$> dir_values)) as Hin.
    { apply list_elem_of_filter. split; [done | apply directions_enumerated]. }
    rewrite Hnil in Hin. by apply elem_of_nil in Hin.
  - intros Hno.
    destruct (filter _ _) as [|d l] eqn:Hf; [done |].
    assert (d ∈ filter (λ dir, is_valid_move gs player dir = true)
                       (getDirectionFromValue <$> dir_values)) as Hin
      by (rewrite Hf; left).
    apply list_elem_of_filter in Hin as [Hv _]. by rewrite Hno in Hv.
Qed.

(** ** Terminal test *)

Lemma game_over_unfold self gs :
  game_over self gs =
  negb ((is_valid_move gs (my_player self) Up || is_valid_move gs (my_player self) Down
         || is_valid_move gs (my_player self) Left || is_valid_move gs (my_player self) Right)
        || (is_valid_move gs (opponent self) Up || is_valid_move gs (opponent self) Down
         || is_valid_move gs (opponent self) Left || is_valid_move gs (opponent self) Right)).
Proof.
  unfold game_over, dir_values. cbn [foldl getDirectionFromValue].
  generalize (is_valid_move gs (my_player self) Up), (is_valid_move gs (my_player self) Down),
    (is_valid_move gs (my_player self) Left), (is_valid_move gs (my_player self) Right),
    (is_valid_move gs (opponent self) Up), (is_valid_move gs (opponent self) Down),
    (is_valid_move gs (opponent self) Left), (is_valid_move gs (opponent self) Right).
  by intros [] [] [] [] [] [] [] [].
Qed.

Lemma game_over_no_valid_move self gs :
  game_over self gs = true ↔
  (∀ dir, is_valid_move gs (my_player self) dir = false) ∧
  (∀ dir, is_valid_move gs (opponent self) dir = false).
Proof.
  rewrite game_over_unfold, negb_true_iff, !orb_false_iff. split.
  - intros [[[[? ?] ?] ?] [[[? ?] ?] ?]]. split; intros []; done.
  - intros [Hmy Hopp]. by rewrite !Hmy, !Hopp.
Qed.

(** C6: [game_over] returns true exactly when the legal move sets of both
    players over the four directions are empty. *)
Theorem game_over_iff self gs :
  game_over self gs = true ↔
  legal_moves gs (my_player self) = [] ∧ legal_moves gs (opponent self) = [].
Proof. rewrite !legal_moves_nil. apply game_over_no_valid_move. Qed.

Lemma game_over_no_moves self gs :
  moves_left self gs = 0%nat → game_over self gs = true.
Proof.
  unfold moves_left. intros H. apply game_over_no_valid_move.
  assert (∀ player,
            length (filter (λ dv, is_valid_move gs player (getDirectionFromValue dv) = true)
                           dir_values) = 0%nat →
            ∀ dir, is_valid_move gs player dir = false) as Hnil.
  { intros player Hlen%length_zero_iff_nil dir.
    apply not_true_is_false. intros Hv.
    destruct (dir_value_of dir) as (dv & Hdv & <-).
    assert (dv ∈ filter (λ dv, is_valid_move gs player (getDirectionFromValue dv) = true)
                        dir_values) as Hin by (by apply list_elem_of_filter).
    rewrite Hlen in Hin. by apply elem_of_nil in Hin. }
  split; apply Hnil; lia.
Qed.

(** ** The driver without a legal move *)

Lemma decideMove_loop_no_move self dvs bestScore bestMove :
  (∀ dir, is_valid_move (state self) (my_player self) dir = false) →
  decideMove_loop self dvs bestScore bestMove = bestMove.
Proof.
  intros Hno. induction dvs as [|dv dvs IH]; [done |].
  cbn [decideMove_loop]. by rewrite Hno.
Qed.

(** C8: when self has no legal move in any of the four directions,
    [decideMove] still returns a direction: the default one, which is the
    first of the canonical order. *)
Theorem decideMove_no_legal_move self :
  legal_moves (state self) (my_player self) = [] →
  decideMove self = Up ∧
  head (getDirectionFromValue <$> dir_values) = Some (decideMove self).
Proof.
  intros Hno. pose proof (proj1 (legal_moves_nil _ _) Hno) as Hno'.
  assert (decideMove self = Up) as -> by (by apply decideMove_loop_no_move).
  done.
Qed.

Lemma decideMove_no_legal_move_witness :
  legal_moves (state (bot_on board_1x1)) (my_player (bot_on board_1x1)) = [] ∧
  decideMove (bot_on board_1x1) = Up.
Proof.
  assert (legal_moves (state (bot_on board_1x1)) (my_player (bot_on board_1x1)) = [])
    as Hno by (by vm_compute).
  split; [exact Hno |].
  exact (proj1 (decideMove_no_legal_move (bot_on board_1x1) Hno)).
Defined.

(** ** The search tree is finite *)

Lemma filter_length_le {A} (P Q : A → Prop) `{∀ x, Decision (P x)} `{∀ x, Decision (Q x)}
    (l : list A) :
  (∀ x, x ∈ l → P x → Q x) → (length (filter P l) ≤ length (filter Q l))%nat.
Proof.
  induction l as [|x l IH]; intros HPQ; [done |].
  assert (length (filter P l) ≤ length (filter Q l))%nat as IH'.
  { apply IH. intros y Hy. apply HPQ. by right. }
  rewrite !filter_cons. destruct (decide (P x)) as [HP | HP].
  - rewrite decide_True by (apply HPQ; [by left | done]). cbn. lia.
  - destruct (decide (Q x)); cbn; lia.
Qed.

Lemma filter_length_lt {A} (P Q : A → Prop) `{∀ x, Decision (P x)} `{∀ x, Decision (Q x)}
    (l : list A) (a : A) :
  (∀ x, x ∈ l → P x → Q x) → a ∈ l → Q a → ¬ P a →
  (length (filter P l) < length (filter Q l))%nat.
Proof.
  induction l as [|x l IH]; intros HPQ Ha HQ HnP; [by apply elem_of_nil in Ha |].
  assert (length (filter P l) ≤ length (filter Q l))%nat as Hle.
  { apply filter_length_le. intros y Hy. apply HPQ. by right. }
  rewrite !filter_cons. apply elem_of_cons in Ha as [<- | Ha].
  - rewrite decide_False, decide_True by done. cbn. lia.
  - assert (length (filter P l) < length (filter Q l))%nat as Hlt.
    { apply IH; try done. intros y Hy. apply HPQ. by right. }
    destruct (decide (P x)) as [HP | HP].
    + rewrite decide_True by (apply HPQ; [by left | done]). cbn. lia.
    + destruct (decide (Q x)); cbn; lia.
Qed.

(** A move blocks its destination and leaves the rest of the grid as it
    was. *)
Lemma movePlayer_cell gs player dir q :
  getGridCell (movePlayer gs player dir).1 q =
  if decide (q = neighbour (position player) dir) then 1 else getGridCell gs q.
Proof. done. Qed.

Lemma movePlayer_inside gs player dir q :
  isInsideGrid (movePlayer gs player dir).1 q = isInsideGrid gs q.
Proof. done. Qed.

Lemma movePlayer_valid gs mover dir player e :
  is_valid_move (movePlayer gs mover dir).1 player e = true ↔
  is_valid_move gs player e = true ∧
  neighbour (position player) e ≠ neighbour (position mover) dir.
Proof.
  rewrite !is_valid_move_true. unfold free_cell.
  rewrite movePlayer_inside, movePlayer_cell.
  destruct (decide (neighbour (position player) e = neighbour (position mover) dir))
    as [Heq | Hne].
  - split; [intros [_ ?]; lia | intros [_ ?]; done].
  - split; [intros [? ?]; done | intros [[? ?] _]; done].
Qed.

Lemma moves_left_decreases self gs dir :
  (is_valid_move gs (my_player self) dir = true →
   moves_left self (movePlayer gs (my_player self) dir).1 < moves_left self gs)%nat ∧
  (is_valid_move gs (opponent self) dir = true →
   moves_left self (movePlayer gs (opponent self) dir).1 < moves_left self gs)%nat.
Proof.
  destruct (dir_value_of dir) as (dv & Hdv & <-).
  assert (∀ mover player d,
            (length (filter (λ dv', is_valid_move (movePlayer gs mover d).1 player
                                      (getDirectionFromValue dv') = true) dir_values)
             ≤ length (filter (λ dv', is_valid_move gs player
                                      (getDirectionFromValue dv') = true) dir_values))%nat)
    as Hle.
  { intros mover player d. apply filter_length_le.
    intros x _ Hx. by apply movePlayer_valid in Hx as [? _]. }
  assert (∀ mover,
            is_valid_move gs mover (getDirectionFromValue dv) = true →
            (length (filter (λ dv', is_valid_move (movePlayer gs mover (getDirectionFromValue dv)).1
                                      mover (getDirectionFromValue dv') = true) dir_values)
             < length (filter (λ dv', is_valid_move gs mover
                                      (getDirectionFromValue dv') = true) dir_values))%nat)
    as Hlt.
  { intros mover Hv. apply filter_length_lt with dv; try done.
    - intros x _ Hx. by apply movePlayer_valid in Hx as [? _].
    - intros Hx. by apply movePlayer_valid in Hx as [_ ?]. }
  unfold moves_left. split; intros Hv.
  - pose proof (Hlt _ Hv). pose proof (Hle (my_player self) (opponent self) (getDirectionFromValue dv)). lia.
  - pose proof (Hlt _ Hv). pose proof (Hle (opponent self) (my_player self) (getDirectionFromValue dv)). lia.
Qed.

(** ** The search always returns *)

(** Settles a bound on the moves left in a successor state from the
    legality of the move that leads to it. *)
Ltac successor_budget :=
  match goal with
  | Hv : is_valid_move ?gs (my_player ?self) ?dir = true |- _ =>
      pose proof (proj1 (moves_left_decreases self gs dir) Hv)
  | Hv : is_valid_move ?gs (opponent ?self) ?dir = true |- _ =>
      pose proof (proj2 (moves_left_decreases self gs dir) Hv)
  end; lia.

Lemma max_layer_ext rec rec' self gs dvs : ∀ maxEval alpha beta,
  (∀ dir a b, is_valid_move gs (my_player self) dir = true →
     rec (movePlayer gs (my_player self) dir).1 a b
     = rec' (movePlayer gs (my_player self) dir).1 a b) →
  max_layer rec self gs dvs maxEval alpha beta
  = max_layer rec' self gs dvs maxEval alpha beta.
Proof.
  induction dvs as [|dv dvs IH]; intros maxEval alpha beta Hrec; [done |].
  cbn [max_layer].
  destruct (is_valid_move gs (my_player self) (getDirectionFromValue dv)) eqn:Hv;
    [| by apply IH].
  cbn [movePlayer]. pose proof (Hrec _ alpha beta Hv) as Heq. cbn [movePlayer fst] in Heq.
  rewrite Heq. destruct (rec' _ alpha beta) as [eval|]; [| done].
  destruct (beta <=? Z.max alpha eval); [done | by apply IH].
Qed.

Lemma min_layer_ext rec rec' self gs dvs : ∀ minEval alpha beta,
  (∀ dir a b, is_valid_move gs (opponent self) dir = true →
     rec (movePlayer gs (opponent self) dir).1 a b
     = rec' (movePlayer gs (opponent self) dir).1 a b) →
  min_layer rec self gs dvs minEval alpha beta
  = min_layer rec' self gs dvs minEval alpha beta.
Proof.
  induction dvs as [|dv dvs IH]; intros minEval alpha beta Hrec; [done |].
  cbn [min_layer].
  destruct (is_valid_move gs (opponent self) (getDirectionFromValue dv)) eqn:Hv;
    [| by apply IH].
  cbn [movePlayer]. pose proof (Hrec _ alpha beta Hv) as Heq. cbn [movePlayer fst] in Heq.
  rewrite Heq. destruct (rec' _ alpha beta) as [eval|]; [| done].
  destruct (Z.min beta eval <=? alpha); [done | by apply IH].
Qed.

Lemma max_layer_total (value : GameState → Z → Z → Z) self gs dvs : ∀ maxEval alpha beta,
  is_Some (max_layer (λ g a b, Some (value g a b)) self gs dvs maxEval alpha beta).
Proof.
  induction dvs as [|dv dvs IH]; intros maxEval alpha beta; [done |].
  cbn [max_layer]. destruct (is_valid_move _ _ _); [| by apply IH].
  cbn [movePlayer]. destruct (beta <=? _); [done | by apply IH].
Qed.

Lemma min_layer_total (value : GameState → Z → Z → Z) self gs dvs : ∀ minEval alpha beta,
  is_Some (min_layer (λ g a b, Some (value g a b)) self gs dvs minEval alpha beta).
Proof.
  induction dvs as [|dv dvs IH]; intros minEval alpha beta; [done |].
  cbn [min_layer]. destruct (is_valid_move _ _ _); [| by apply IH].
  cbn [movePlayer]. destruct (_ <=? alpha); [done | by apply IH].
Qed.

(** A budget above [moves_left] is never exhausted, and then the result
    does not depend on the budget. *)
Lemma minimax_fuel_minimax self fuel : ∀ gs depth maximizingPlayer alpha beta,
  (moves_left self gs < fuel)%nat →
  minimax_fuel fuel self gs depth maximizingPlayer alpha beta
  = Some (minimax self gs depth maximizingPlayer alpha beta).
Proof.
  assert (∀ fuel gs depth mx alpha beta,
            (moves_left self gs < fuel)%nat →
            ∃ v, ∀ fuel', (fuel ≤ fuel')%nat →
                   minimax_fuel fuel' self gs depth mx alpha beta = Some v) as Hstable.
  { clear fuel. induction fuel as [|fuel IH]; intros gs depth mx alpha beta Hfuel; [lia |].
    destruct ((depth =? 0) || game_over self gs) eqn:Hleaf.
    { exists (evaluate self gs). intros [|fuel'] Hle; [lia |].
      cbn [minimax_fuel]. by rewrite Hleaf. }
    assert (∀ mx' dir player,
              player = my_player self ∨ player = opponent self →
              is_valid_move gs player dir = true →
              ∃ value : Z → Z → Z, ∀ fuel' a b, (fuel ≤ fuel')%nat →
                minimax_fuel fuel' self (movePlayer gs player dir).1
                  (wrap_int (depth - 1)) mx' a b = Some (value a b)) as Hchild.
    { intros mx' dir player Hplayer Hv.
      assert (moves_left self (movePlayer gs player dir).1 < fuel)%nat as Hlt.
      { destruct (moves_left_decreases self gs dir) as [Hmy Hopp].
        destruct Hplayer as [-> | ->]; [specialize (Hmy Hv) | specialize (Hopp Hv)]; lia. }
      exists (λ a b, default 0
                (minimax_fuel fuel self (movePlayer gs player dir).1 (wrap_int (depth - 1)) mx' a b)).
      intros fuel' a b Hle.
      destruct (IH _ (wrap_int (depth - 1)) mx' a b Hlt) as [v Hv'].
      rewrite (Hv' fuel) by lia. by rewrite (Hv' fuel') by lia. }
    set (value := λ mx' (g : GameState) a b,
           default 0 (minimax_fuel fuel self g (wrap_int (depth - 1)) mx' a b)).
    destruct mx.
    - destruct (max_layer_total (value false) self gs dir_values INT_MIN alpha beta)
        as [v Hv].
      exists v. intros [|fuel'] Hle; [lia |]. cbn [minimax_fuel]. rewrite Hleaf.
      rewrite <- Hv. apply max_layer_ext. intros dir a b Hvalid.
      destruct (Hchild false dir (my_player self) (or_introl eq_refl) Hvalid)
        as [value' Hvalue].
      unfold value. rewrite (Hvalue fuel') by lia. by rewrite (Hvalue fuel) by lia.
    - destruct (min_layer_total (value true) self gs dir_values INT_MAX alpha beta)
        as [v Hv].
      exists v. intros [|fuel'] Hle; [lia |]. cbn [minimax_fuel]. rewrite Hleaf.
      rewrite <- Hv. apply min_layer_ext. intros dir a b Hvalid.
      destruct (Hchild true dir (opponent self) (or_intror eq_refl) Hvalid)
        as [value' Hvalue].
      unfold value. rewrite (Hvalue fuel') by lia. by rewrite (Hvalue fuel) by lia. }
  intros gs depth mx alpha beta Hfuel.
  destruct (Hstable (S (moves_left self gs)) gs depth mx alpha beta) as [v Hv]; [lia |].
  unfold minimax. rewrite (Hv (S (moves_left self gs))) by lia.
  by rewrite (Hv fuel) by lia.
Qed.

(** [minimax] satisfies the equation of its source text. *)
Lemma minimax_unfold self gs depth maximizingPlayer alpha beta :
  Some (minimax self gs depth maximizingPlayer alpha beta) =
  if (depth =? 0) || game_over self gs then Some (evaluate self gs)
  else if maximizingPlayer then
    max_layer (λ g a b, Some (minimax self g (wrap_int (depth - 1)) false a b))
              self gs dir_values INT_MIN alpha beta
  else
    min_layer (λ g a b, Some (minimax self g (wrap_int (depth - 1)) true a b))
              self gs dir_values INT_MAX alpha beta.
Proof.
  rewrite <- (minimax_fuel_minimax self (S (moves_left self gs))) by lia.
  cbn [minimax_fuel]. destruct (_ || _); [done |].
  destruct maximizingPlayer.
  - apply max_layer_ext. intros dir a b Hv. apply minimax_fuel_minimax.
    successor_budget.
  - apply min_layer_ext. intros dir a b Hv. apply minimax_fuel_minimax.
    successor_budget.
Qed.

(** ** Pruning does not change the value *)

Lemma foldl_max_ge l : ∀ v, v ≤ foldl Z.max v l.
Proof.
  induction l as [|x l IH]; intros v; cbn; [lia |].
  specialize (IH (Z.max v x)). lia.
Qed.

Lemma foldl_min_le l : ∀ v, foldl Z.min v l ≤ v.
Proof.
  induction l as [|x l IH]; intros v; cbn; [lia |].
  specialize (IH (Z.min v x)). lia.
Qed.

Lemma layer_values_cons value gs player dv dvs :
  layer_values value gs player (dv :: dvs) =
  if is_valid_move gs player (getDirectionFromValue dv)
  then value (movePlayer gs player (getDirectionFromValue dv)).1
       :: layer_values value gs player dvs
  else layer_values value gs player dvs.
Proof.
  unfold layer_values. rewrite fmap_cons, filter_cons.
  destruct (is_valid_move gs player (getDirectionFromValue dv)) eqn:Hv.
  - by rewrite decide_True.
  - by rewrite decide_False.
Qed.

Section Layers.
Variable self : SmartestBotClient.
Variable gs : GameState.
Variable rec : GameState → Z → Z → option Z.
Variable value : GameState → Z.

(** The maximizing loop, entered with the window ([alpha0], [beta]):
    [maxEval] is the running maximum, [V] the exact maximum over the
    successors visited so far. *)
Lemma max_layer_window alpha0 beta :
  INT_MIN ≤ alpha0 → beta ≤ INT_MAX →
  (∀ dir a b, is_valid_move gs (my_player self) dir = true →
     INT_MIN ≤ a → a < b → b ≤ INT_MAX →
     ∃ r, rec (movePlayer gs (my_player self) dir).1 a b = Some r ∧
          window_bound r (value (movePlayer gs (my_player self) dir).1) a b) →
  ∀ dvs maxEval alpha V,
    alpha = Z.max alpha0 maxEval → alpha < beta →
    (maxEval ≤ alpha0 → V ≤ maxEval) → (alpha0 < maxEval → maxEval = V) →
    ∃ r, max_layer rec self gs dvs maxEval alpha beta = Some r ∧
         window_bound r (foldl Z.max V (layer_values value gs (my_player self) dvs))
                      alpha0 beta.
Proof.
  intros Hlo Hhi Hrec.
  induction dvs as [|dv dvs IH]; intros maxEval alpha V Halpha Hlt Hlow Hexact.
  { exists maxEval. split; [done |]. unfold window_bound. cbn. lia. }
  cbn [max_layer]. rewrite layer_values_cons.
  destruct (is_valid_move gs (my_player self) (getDirectionFromValue dv)) eqn:Hv;
    [| by apply IH].
  destruct (Hrec _ alpha beta Hv) as (eval & Heval & Hb1 & Hb2 & Hb3); [lia | lia | lia |].
  cbn [movePlayer fst] in Heval |- *. rewrite Heval. cbn [foldl].
  destruct (Z.leb_spec beta (Z.max alpha eval)) as [Hcut | Hgo].
  - eexists. split; [done |].
    pose proof (foldl_max_ge
      (layer_values value gs (my_player self) dvs)
      (Z.max V (value (setGridCell gs (vadd (position (my_player self))
                 (getDirectionVector (getDirectionFromValue dv))) 1)))) as Hge.
    unfold window_bound. cbn [movePlayer fst] in *. lia.
  - apply IH; cbn [movePlayer fst] in *; lia.
Qed.

Lemma min_layer_window alpha beta0 :
  INT_MIN ≤ alpha → beta0 ≤ INT_MAX →
  (∀ dir a b, is_valid_move gs (opponent self) dir = true →
     INT_MIN ≤ a → a < b → b ≤ INT_MAX →
     ∃ r, rec (movePlayer gs (opponent self) dir).1 a b = Some r ∧
          window_bound r (value (movePlayer gs (opponent self) dir).1) a b) →
  ∀ dvs minEval beta V,
    beta = Z.min beta0 minEval → alpha < beta →
    (beta0 ≤ minEval → minEval ≤ V) → (minEval < beta0 → minEval = V) →
    ∃ r, min_layer rec self gs dvs minEval alpha beta = Some r ∧
         window_bound r (foldl Z.min V (layer_values value gs (opponent self) dvs))
                      alpha beta0.
Proof.
  intros Hlo Hhi Hrec.
  induction dvs as [|dv dvs IH]; intros minEval beta V Hbeta Hlt Hhigh Hexact.
  { exists minEval. split; [done |]. unfold window_bound. cbn. lia. }
  cbn [min_layer]. rewrite layer_values_cons.
  destruct (is_valid_move gs (opponent self) (getDirectionFromValue dv)) eqn:Hv;
    [| by apply IH].
  destruct (Hrec _ alpha beta Hv) as (eval & Heval & Hb1 & Hb2 & Hb3); [lia | lia | lia |].
  cbn [movePlayer fst] in Heval |- *. rewrite Heval. cbn [foldl].
  destruct (Z.leb_spec (Z.min beta eval) alpha) as [Hcut | Hgo].
  - eexists. split; [done |].
    pose proof (foldl_min_le
      (layer_values value gs (opponent self) dvs)
      (Z.min V (value (setGridCell gs (vadd (position (opponent self))
                 (getDirectionVector (getDirectionFromValue dv))) 1)))) as Hle.
    unfold window_bound. cbn [movePlayer fst] in *. lia.
  - apply IH; cbn [movePlayer fst] in *; lia.
Qed.
End Layers.

Lemma layer_values_self_children value self gs :
  layer_values value gs (my_player self) dir_values = value <$> self_children self gs.
Proof. unfold layer_values, self_children, legal_moves. by rewrite <- list_fmap_compose. Qed.

Lemma layer_values_opponent_children value self gs :
  layer_values value gs (opponent self) dir_values = value <$> opponent_children self gs.
Proof. unfold layer_values, opponent_children, legal_moves. by rewrite <- list_fmap_compose. Qed.

Lemma full_minimax_unfold plies self gs depth maximizingPlayer :
  (moves_left self gs ≤ plies)%nat →
  full_minimax plies self gs depth maximizingPlayer =
  if (depth =? 0) || game_over self gs then evaluate self gs
  else if maximizingPlayer then
    foldl Z.max INT_MIN
      (layer_values (λ g, full_minimax (plies - 1) self g (wrap_int (depth - 1)) false)
                    gs (my_player self) dir_values)
  else
    foldl Z.min INT_MAX
      (layer_values (λ g, full_minimax (plies - 1) self g (wrap_int (depth - 1)) true)
                    gs (opponent self) dir_values).
Proof.
  intros Hplies. rewrite layer_values_self_children, layer_values_opponent_children.
  destruct plies as [|plies]; cbn [full_minimax].
  - rewrite game_over_no_moves by lia. by rewrite orb_true_r.
  - by replace (S plies - 1)%nat with plies by lia.
Qed.

Lemma window_bound_refl v alpha beta : window_bound v v alpha beta.
Proof. unfold window_bound. lia. Qed.

(** The pruned search brackets the full minimax value from the right
    side of its window. *)
Lemma minimax_fuel_window self fuel : ∀ plies gs depth maximizingPlayer alpha beta,
  (moves_left self gs < fuel)%nat → (moves_left self gs ≤ plies)%nat →
  INT_MIN ≤ alpha → alpha < beta → beta ≤ INT_MAX →
  ∃ r, minimax_fuel fuel self gs depth maximizingPlayer alpha beta = Some r ∧
       window_bound r (full_minimax plies self gs depth maximizingPlayer) alpha beta.
Proof.
  induction fuel as [|fuel IH];
    intros plies gs depth mx alpha beta Hfuel Hplies Hlo Hlt Hhi; [lia |].
  rewrite full_minimax_unfold by done. cbn [minimax_fuel].
  destruct ((depth =? 0) || game_over self gs); [by eauto using window_bound_refl |].
  destruct mx.
  - apply max_layer_window; try done; try lia.
    intros dir a b Hv Ha Hab Hb. apply IH; try done; successor_budget.
  - apply min_layer_window; try done; try lia.
    intros dir a b Hv Ha Hab Hb. apply IH; try done; successor_budget.
Qed.

Lemma foldl_max_range l : ∀ v,
  INT_MIN ≤ v ≤ INT_MAX → Forall (λ x, INT_MIN ≤ x ≤ INT_MAX) l →
  INT_MIN ≤ foldl Z.max v l ≤ INT_MAX.
Proof.
  induction l as [|x l IH]; intros v Hv Hl; [done |].
  apply Forall_cons in Hl as [Hx Hl]. cbn. apply IH; [lia | done].
Qed.

Lemma foldl_min_range l : ∀ v,
  INT_MIN ≤ v ≤ INT_MAX → Forall (λ x, INT_MIN ≤ x ≤ INT_MAX) l →
  INT_MIN ≤ foldl Z.min v l ≤ INT_MAX.
Proof.
  induction l as [|x l IH]; intros v Hv Hl; [done |].
  apply Forall_cons in Hl as [Hx Hl]. cbn. apply IH; [lia | done].
Qed.

Lemma full_minimax_range plies self : ∀ gs depth maximizingPlayer,
  INT_MIN ≤ full_minimax plies self gs depth maximizingPlayer ≤ INT_MAX.
Proof.
  induction plies as [|plies IH]; intros gs depth mx; cbn [full_minimax];
    [apply wrap_int_range |].
  destruct (_ || _); [apply wrap_int_range |].
  destruct mx.
  - apply foldl_max_range; [unfold INT_MIN, INT_MAX; lia |].
    apply Forall_fmap, Forall_forall. intros g _. apply IH.
  - apply foldl_min_range; [unfold INT_MIN, INT_MAX; lia |].
    apply Forall_fmap, Forall_forall. intros g _. apply IH.
Qed.

(** The ply bound of [full_minimax] is immaterial once it covers the
    moves that are left. *)
Lemma full_minimax_stable self plies : ∀ plies' gs depth maximizingPlayer,
  (moves_left self gs ≤ plies)%nat → (moves_left self gs ≤ plies')%nat →
  full_minimax plies self gs depth maximizingPlayer
  = full_minimax plies' self gs depth maximizingPlayer.
Proof.
  induction plies as [|plies IH]; intros plies' gs depth mx Hp Hp'.
  { rewrite (full_minimax_unfold plies') by done. cbn [full_minimax].
    rewrite game_over_no_moves by lia. by rewrite orb_true_r. }
  destruct plies' as [|plies'].
  { cbn [full_minimax].
    rewrite game_over_no_moves by lia. by rewrite orb_true_r. }
  cbn [full_minimax]. destruct (_ || _); [done |].
  destruct mx; f_equal; apply list_fmap_ext; intros i g Hg;
    apply list_elem_of_lookup_2 in Hg;
    apply list_elem_of_fmap in Hg as (dir & -> & Hdir);
    apply list_elem_of_filter in Hdir as [Hv _];
    apply IH; successor_budget.
Qed.

(** C2: for every state, depth and side to move, the alpha-beta search
    called with the widest window returns the value of the full minimax
    traversal of the same tree. *)
Theorem minimax_pruning_equivalence self gs depth maximizingPlayer :
  minimax_fuel (S (moves_left self gs)) self gs depth maximizingPlayer INT_MIN INT_MAX
  = Some (minimax_unpruned self gs depth maximizingPlayer) ∧
  minimax self gs depth maximizingPlayer INT_MIN INT_MAX
  = minimax_unpruned self gs depth maximizingPlayer.
Proof.
  destruct (minimax_fuel_window self (S (moves_left self gs)) (moves_left self gs)
              gs depth maximizingPlayer INT_MIN INT_MAX)
    as (r & Hr & Hb1 & Hb2 & Hb3); try done; try lia.
  assert (r = minimax_unpruned self gs depth maximizingPlayer) as ->.
  { unfold minimax_unpruned.
    pose proof (full_minimax_range (moves_left self gs) self gs depth maximizingPlayer).
    lia. }
  split; [done |]. unfold minimax. by rewrite Hr.
Qed.

(** ** Static evaluation *)

Lemma floodFill_bounds gs start :
  0 ≤ gridWidth gs → 0 ≤ gridHeight gs →
  gridWidth gs * gridHeight gs ≤ INT_MAX →
  0 ≤ floodFill gs start ≤ gridWidth gs * gridHeight gs.
Proof.
  intros Hw Hh Hsize.
  destruct (floodFill_run_spec gs start) as (visited & seen & Hrun & Hinv & _).
  pose proof (flood_inv_size gs start visited seen [] Hw Hh Hinv) as Hcount.
  unfold floodFill. rewrite Hrun, wrap_int_id; unfold INT_MIN; lia.
Qed.

Lemma receive_loop_fields nm ps : ∀ s0,
  bot_name s0 = nm →
  bot_name (foldl receive_player s0 ps) = nm ∧
  state (foldl receive_player s0 ps) = state s0 ∧
  my_player (foldl receive_player s0 ps) = default (my_player s0) (player_named nm ps) ∧
  opponent (foldl receive_player s0 ps) = default (opponent s0) (player_not_named nm ps).
Proof.
  unfold player_named, player_not_named.
  induction ps as [|p ps IH]; intros s0 Hnm; [done |].
  cbn [foldl]. rewrite !filter_cons.
  assert (bot_name (receive_player s0 p) = nm) as Hnm'.
  { unfold receive_player. by destruct (decide _). }
  destruct (IH (receive_player s0 p) Hnm') as (-> & -> & -> & ->).
  unfold receive_player. rewrite Hnm.
  destruct (decide (name p = nm)) as [Hp | Hp].
  - rewrite decide_False by (by intros ?). rewrite last_cons.
    cbn [bot_name state my_player opponent].
    by destruct (last (filter _ ps)).
  - rewrite decide_True by done. rewrite last_cons.
    cbn [bot_name state my_player opponent].
    by destruct (last (filter (λ p0, name p0 ≠ nm) ps)).
Qed.

Lemma receiveGameState_fields self received :
  bot_name (receiveGameState self received) = bot_name self ∧
  state (receiveGameState self received) = received ∧
  my_player (receiveGameState self received)
    = default (my_player self) (player_named (bot_name self) (players received)) ∧
  opponent (receiveGameState self received)
    = default (opponent self) (player_not_named (bot_name self) (players received)).
Proof.
  exact (receive_loop_fields (bot_name self) (players received)
           {| bot_name := bot_name self; state := received;
              my_player := my_player self; opponent := opponent self |} eq_refl).
Qed.

Lemma search_state_frame self gs :
  search_state self gs →
  gridWidth gs = gridWidth (state self) ∧
  gridHeight gs = gridHeight (state self) ∧
  players gs = players (state self).
Proof. induction 1; done. Qed.

(** What [evaluate] does compute in a state of the search: the area from
    the position that the player list records for self minus the area from
    the position that it records for the opponent.  No move of the search
    updates that list, so these are the positions of the snapshot. *)
Lemma evaluate_area_difference self0 received gs me opp :
  let self := receiveGameState self0 received in
  0 ≤ gridWidth received → 0 ≤ gridHeight received →
  gridWidth received * gridHeight received ≤ INT_MAX →
  search_state self gs →
  player_named (bot_name self0) (players gs) = Some me →
  player_not_named (bot_name self0) (players gs) = Some opp →
  evaluate self gs = floodFill gs (position me) - floodFill gs (position opp).
Proof.
  intros self Hw Hh Hsize Hgs Hme Hopp.
  destruct (receiveGameState_fields self0 received) as (_ & Hstate & Hmy & Hopponent).
  destruct (search_state_frame self gs Hgs) as (Hgw & Hgh & Hps).
  fold self in Hstate, Hmy, Hopponent. rewrite Hstate in Hgw, Hgh, Hps.
  rewrite Hps in Hme, Hopp. rewrite Hme in Hmy. rewrite Hopp in Hopponent.
  unfold evaluate. rewrite Hmy, Hopponent. cbn [default].
  pose proof (floodFill_bounds gs (position me)) as Hb1.
  pose proof (floodFill_bounds gs (position opp)) as Hb2.
  rewrite Hgw, Hgh in Hb1, Hb2.
  apply wrap_int_id. unfold INT_MIN, INT_MAX in *. lia.
Qed.

(** C3: on the corridor, [decideMove] moves self Right and scores the
    resulting state with [evaluate].  In that state self stands on (1,0)
    and the opponent on (2,0), from where the reachable areas are 0 and 1;
    [evaluate] returns the areas from (0,0) and (2,0) instead, 1 - 1 = 0,
    not 0 - 1 = -1. *)
Theorem evaluate_misses_moved_position :
  let self := bot_on board_3x1 in
  let gs := (movePlayer (state self) (my_player self) Right).1 in
  let moved := (movePlayer (state self) (my_player self) Right).2 in
  search_state self gs ∧
  game_over self gs = true ∧
  move_score self Right = evaluate self gs ∧
  position moved = (1, 0) ∧
  position (opponent self) = (2, 0) ∧
  floodFill gs (position moved) - floodFill gs (position (opponent self)) = -1 ∧
  evaluate self gs = 0 ∧
  evaluate self gs = floodFill gs (0, 0) - floodFill gs (2, 0).
Proof.
  split; [| by vm_compute].
  exact (search_my_move (bot_on board_3x1) board_3x1 Right
           (search_root (bot_on board_3x1)) eq_refl).
Qed.

(** ** What the search sees after a move *)

(** C1: on the corridor, the maximizing layer at depth 1 finds the single
    legal direction Right, blocks the destination (1,0) in a copy of the
    state and moves a copy of the player there.  The nested call at depth
    0 works with the player still at (0,0): from there no move is legal,
    where Left and Right are legal from the destination, and the
    evaluation is 1 - 1 = 0, where the evaluation from the destination
    is -1. *)
Theorem minimax_keeps_old_position :
  let self := bot_on board_3x1 in
  let newGameState := (movePlayer board_3x1 (my_player self) Right).1 in
  let newMyPlayer := (movePlayer board_3x1 (my_player self) Right).2 in
  legal_moves board_3x1 (my_player self) = [Right] ∧
  getGridCell newGameState (1, 0) = 1 ∧
  position newMyPlayer = (1, 0) ∧
  position (my_player self) = (0, 0) ∧
  legal_moves newGameState newMyPlayer = [Left; Right] ∧
  legal_moves newGameState (my_player self) = [] ∧
  minimax self newGameState 0 false INT_MIN INT_MAX
    = floodFill newGameState (0, 0) - floodFill newGameState (2, 0) ∧
  minimax self board_3x1 1 true INT_MIN INT_MAX = 0 ∧
  evaluate {| bot_name := bot_name self; state := state self;
              my_player := newMyPlayer; opponent := opponent self |} newGameState = -1.
Proof. by vm_compute. Qed.

(** ** The driver facing a single legal move *)

(** C7: on [board_corner] self has exactly one legal direction, Right;
    its search score is the smallest [int], which is not a strict
    improvement on the initial best score, so [decideMove] returns the
    default Up, a direction that is not legal. *)
Theorem decideMove_misses_only_move :
  let self := bot_on board_corner in
  legal_moves (state self) (my_player self) = [Right] ∧
  legal_moves (state self) (opponent self) = [Up; Left] ∧
  minimax self (movePlayer (state self) (my_player self) Right).1 (MAX_DEPTH - 1) false
          INT_MIN INT_MAX = INT_MIN ∧
  decideMove self = Up ∧
  is_valid_move (state self) (my_player self) Up = false.
Proof. by vm_compute. Qed.

(** What the loop of [decideMove] returns over the direction ranks [dvs]:
    either no legal direction improves on [bestScore] and [bestMove]
    stays, or the result is the first legal direction of maximal score. *)
Lemma decideMove_loop_first_best self dvs : ∀ bestScore bestMove,
  let legal := filter (λ dir, is_valid_move (state self) (my_player self) dir = true)
                      (getDirectionFromValue <$> dvs) in
  (Forall (λ dir, move_score self dir ≤ bestScore) legal ∧
   decideMove_loop self dvs bestScore bestMove = bestMove) ∨
  (∃ before best after,
     legal = before ++ best :: after ∧
     decideMove_loop self dvs bestScore bestMove = best ∧
     bestScore < move_score self best ∧
     Forall (λ dir, move_score self dir < move_score self best) before ∧
     Forall (λ dir, move_score self dir ≤ move_score self best) after).
Proof.
  induction dvs as [|dv dvs IH]; intros bestScore bestMove; [by left |].
  cbn zeta. rewrite fmap_cons, filter_cons. cbn [decideMove_loop].
  destruct (is_valid_move (state self) (my_player self) (getDirectionFromValue dv)) eqn:Hv.
  2: { rewrite decide_False by done. apply IH. }
  rewrite decide_True by done. cbn [movePlayer].
  change (minimax self _ (MAX_DEPTH - 1) false INT_MIN INT_MAX)
    with (move_score self (getDirectionFromValue dv)).
  set (dir := getDirectionFromValue dv). set (score := move_score self dir).
  destruct (Z.gtb_spec score bestScore) as [Hgt | Hle].
  - right. destruct (IH score dir) as [[Hrest ->] | (before & best & after & -> & -> & Hbest & Hb & Ha)].
    + exists [], dir, (filter (λ dir0, is_valid_move (state self) (my_player self) dir0 = true)
                         (getDirectionFromValue <$> dvs)).
      repeat split; [lia | done | done].
    + exists (dir :: before), best, after.
      repeat split; [lia | | done]. apply Forall_cons. split; [done | done].
  - destruct (IH bestScore bestMove) as [[Hrest ->] | (before & best & after & -> & -> & Hbest & Hb & Ha)].
    + left. split; [| done]. apply Forall_cons. split; [done | done].
    + right. exists (dir :: before), best, after.
      repeat split; [done | | done]. apply Forall_cons. split; [| done].
      fold score. lia.
Qed.

(** When some legal direction scores above the smallest [int],
    [decideMove] returns the first legal direction, in canonical order,
    whose score is the maximum over the legal directions. *)
Lemma decideMove_first_best self :
  Exists (λ dir, INT_MIN < move_score self dir) (legal_moves (state self) (my_player self)) →
  ∃ before after,
    legal_moves (state self) (my_player self) = before ++ decideMove self :: after ∧
    Forall (λ dir, move_score self dir < move_score self (decideMove self)) before ∧
    Forall (λ dir, move_score self dir ≤ move_score self (decideMove self)) after.
Proof.
  intros Hsome. unfold decideMove, legal_moves in *.
  destruct (decideMove_loop_first_best self dir_values INT_MIN Up)
    as [[Hall _] | (before & best & after & Hlegal & -> & _ & Hb & Ha)].
  - exfalso. apply Exists_exists in Hsome as (dir & Hdir & Hscore).
    rewrite Forall_forall in Hall. specialize (Hall dir Hdir). lia.
  - by exists before, after.
Qed.

(** ** The decision leaves the bot object as it was *)

Lemma decideMove_run_loop_spec self dvs : ∀ bestScore bestMove,
  decideMove_run_loop self dvs bestScore bestMove
  = (decideMove_loop self dvs bestScore bestMove, self).
Proof.
  induction dvs as [|dv dvs IH]; intros bestScore bestMove; [done |].
  cbn [decideMove_run_loop decideMove_loop].
  destruct (is_valid_move (state self) (my_player self) (getDirectionFromValue dv));
    [| by apply IH].
  cbn [movePlayer_at load_state load_player store_state store_player movePlayer
       this newGameState newMyPlayer].
  destruct (_ >? bestScore); by apply IH.
Qed.

(** C9: [decideMove] returns with the bot object, and so the supplied
    state, as it found it: every grid cell, the player list and both
    player fields.  A move writes to the two copies it is handed and to
    nothing else; in the state copy it sets the destination cell to
    blocked and keeps every other cell, the dimensions and the player
    list; in the player copy it sets the position to the destination. *)
Theorem decideMove_preserves_state self :
  decideMove_run self = (decideMove self, self) ∧
  (∀ q, getGridCell (state (decideMove_run self).2) q = getGridCell (state self) q) ∧
  players (state (decideMove_run self).2) = players (state self) ∧
  my_player (decideMove_run self).2 = my_player self ∧
  opponent (decideMove_run self).2 = opponent self ∧
  (∀ dir (f : Frame),
     let f' := movePlayer_at ref_newGameState ref_newMyPlayer dir f in
     let dest := vadd (position (newMyPlayer f)) (getDirectionVector dir) in
     this f' = this f ∧
     getGridCell (newGameState f') dest = 1 ∧
     (∀ q, q ≠ dest → getGridCell (newGameState f') q = getGridCell (newGameState f) q) ∧
     gridWidth (newGameState f') = gridWidth (newGameState f) ∧
     gridHeight (newGameState f') = gridHeight (newGameState f) ∧
     players (newGameState f') = players (newGameState f) ∧
     position (newMyPlayer f') = dest ∧
     name (newMyPlayer f') = name (newMyPlayer f)) ∧
  (∀ gs player dir,
     let dest := vadd (position player) (getDirectionVector dir) in
     getGridCell (movePlayer gs player dir).1 dest = 1 ∧
     (∀ q, q ≠ dest → getGridCell (movePlayer gs player dir).1 q = getGridCell gs q) ∧
     gridWidth (movePlayer gs player dir).1 = gridWidth gs ∧
     gridHeight (movePlayer gs player dir).1 = gridHeight gs ∧
     players (movePlayer gs player dir).1 = players gs ∧
     position (movePlayer gs player dir).2 = dest ∧
     name (movePlayer gs player dir).2 = name player).
Proof.
  assert (decideMove_run self = (decideMove self, self)) as Hrun
    by apply decideMove_run_loop_spec.
  rewrite Hrun. cbn [snd]. repeat split.
  - unfold getGridCell. cbn. by rewrite decide_True.
  - intros q Hq. unfold getGridCell. cbn. by rewrite decide_False.
  - unfold getGridCell. cbn. by rewrite decide_True.
  - intros q Hq. unfold getGridCell. cbn. by rewrite decide_False.
Qed.

(** * Further properties of the minimax bot *)

(** ** Receiving a snapshot *)

(** X1: [receiveGameState] stores the snapshot; a listed player with the
    name of the bot becomes [my_player], a listed player with another name
    becomes [opponent], the last one listed winning in both cases; when no
    player carries the name of the bot, [my_player] keeps the value it had
    before the call, and likewise [opponent] when every player carries
    it. *)
Theorem receiveGameState_selects self received :
  state (receiveGameState self received) = received ∧
  bot_name (receiveGameState self received) = bot_name self ∧
  (∀ p, player_named (bot_name self) (players received) = Some p →
        my_player (receiveGameState self received) = p ∧
        p ∈ players received ∧ name p = bot_name self) ∧
  (∀ p, player_not_named (bot_name self) (players received) = Some p →
        opponent (receiveGameState self received) = p ∧
        p ∈ players received ∧ name p ≠ bot_name self) ∧
  (Forall (λ p, name p ≠ bot_name self) (players received) →
   my_player (receiveGameState self received) = my_player self) ∧
  (Forall (λ p, name p = bot_name self) (players received) →
   opponent (receiveGameState self received) = opponent self).
Proof.
  destruct (receiveGameState_fields self received) as (Hname & Hstate & Hmy & Hopp).
  split; [done |]. split; [done |].
  assert (∀ (P : Player → Prop) `{∀ x, Decision (P x)} (l : list Player) p,
            last (filter P l) = Some p → p ∈ l ∧ P p) as Hlast.
  { intros P HP l p Hp. apply last_Some_elem_of, list_elem_of_filter in Hp as [? ?]. done. }
  assert (∀ (P : Player → Prop) `{∀ x, Decision (P x)} (l : list Player),
            Forall (λ x, ¬ P x) l → last (filter P l) = None) as Hnone.
  { intros P HP l Hl. destruct (last (filter P l)) as [p|] eqn:Hp; [| done].
    apply Hlast in Hp as [Hin Hp]. rewrite Forall_forall in Hl. by destruct (Hl p Hin). }
  unfold player_named, player_not_named in *.
  split; [| split; [| split]].
  - intros p Hp. rewrite Hmy, Hp. by apply Hlast in Hp as [? ?].
  - intros p Hp. rewrite Hopp, Hp. by apply Hlast in Hp as [? ?].
  - intros Hall. rewrite Hmy, Hnone; [done |].
    eapply Forall_impl; [exact Hall |]. by intros p Hp.
  - intros Hall. rewrite Hopp, Hnone; [done |].
    eapply Forall_impl; [exact Hall |]. intros p Hp Hp'. by apply Hp'.
Qed.

Lemma receiveGameState_lists_both self1 self2 received :
  bot_name self1 = bot_name self2 →
  lists_both (bot_name self1) received →
  receiveGameState self1 received = receiveGameState self2 received.
Proof.
  intros Hnm [[me Hme] [opp Hopp]].
  destruct (receiveGameState_fields self1 received) as (Hn1 & Hs1 & Hm1 & Ho1).
  destruct (receiveGameState_fields self2 received) as (Hn2 & Hs2 & Hm2 & Ho2).
  rewrite <- Hnm in Hn2, Hm2, Ho2. rewrite Hme in Hm1, Hm2. rewrite Hopp in Ho1, Ho2.
  destruct (receiveGameState self1 received), (receiveGameState self2 received).
  cbn in *. congruence.
Qed.

Lemma receiveGameState_bot_name self received :
  bot_name (receiveGameState self received) = bot_name self.
Proof. by destruct (receiveGameState_fields self received) as (? & _). Qed.

(** X2: as long as every snapshot lists the bot and another player, the
    moves that [run] sends do not depend on what earlier turns left in
    the bot: the move of a turn is the decision on that turn's snapshot
    alone. *)
Theorem run_history_free self snapshots :
  Forall (lists_both (bot_name self)) snapshots →
  (run self snapshots).1 = (λ received, decideMove (receiveGameState self received)) <$> snapshots.
Proof.
  revert self. induction snapshots as [|received snapshots IH]; intros self Hall; [done |].
  apply Forall_cons in Hall as [Hhead Hall].
  cbn [run fmap list_fmap].
  specialize (IH (receiveGameState self received)).
  destruct (run (receiveGameState self received) snapshots) as [moves self'].
  cbn [fst] in *. unfold sendMove. f_equal.
  rewrite IH by (by rewrite receiveGameState_bot_name).
  apply list_fmap_ext. intros i st Hst. f_equal.
  apply receiveGameState_lists_both; [by apply receiveGameState_bot_name |].
  rewrite receiveGameState_bot_name.
  rewrite Forall_forall in Hall. apply Hall. by eapply list_elem_of_lookup_2.
Qed.

Lemma run_history_free_witness :
  Forall (lists_both (bot_name (bot_on board_1x1))) [board_3x3; board_3x1] ∧
  (run (bot_on board_1x1) [board_3x3; board_3x1]).1
  = [decideMove (receiveGameState (bot_on board_1x1) board_3x3);
     decideMove (receiveGameState (bot_on board_1x1) board_3x1)].
Proof.
  assert (Forall (lists_both (bot_name (bot_on board_1x1))) [board_3x3; board_3x1]) as Hall.
  { repeat constructor; vm_compute; eauto. }
  split; [exact Hall |].
  exact (run_history_free (bot_on board_1x1) [board_3x3; board_3x1] Hall).
Defined.

(** ** Moves of the search *)

Lemma legal_moves_valid gs player dir :
  dir ∈ legal_moves gs player ↔ is_valid_move gs player dir = true.
Proof.
  unfold legal_moves. rewrite list_elem_of_filter. split; [by intros [? _] |].
  intros Hv. split; [done | apply directions_enumerated].
Qed.

(** X3: a move of the search closes the direction just played for the
    player the search moved, whose recorded position stays where it was,
    and opens no direction for anybody; each move therefore leaves
    strictly fewer legal (player, direction) pairs. *)
Theorem search_move_consumes_direction self gs dir :
  is_valid_move gs (my_player self) dir = true →
  let gs' := (movePlayer gs (my_player self) dir).1 in
  is_valid_move gs' (my_player self) dir = false ∧
  (∀ player e, is_valid_move gs' player e = true → is_valid_move gs player e = true) ∧
  (moves_left self gs' < moves_left self gs)%nat.
Proof.
  intros Hv gs'. split; [| split].
  - apply not_true_is_false. intros Hv'. by apply movePlayer_valid in Hv' as [_ ?].
  - intros player e He. by apply movePlayer_valid in He as [? _].
  - by apply moves_left_decreases.
Qed.

Lemma search_move_consumes_direction_witness :
  is_valid_move board_3x1 (my_player (bot_on board_3x1)) Right = true ∧
  (moves_left (bot_on board_3x1)
     (movePlayer board_3x1 (my_player (bot_on board_3x1)) Right).1
   < moves_left (bot_on board_3x1) board_3x1)%nat.
Proof.
  assert (is_valid_move board_3x1 (my_player (bot_on board_3x1)) Right = true) as Hv
    by reflexivity.
  split; [exact Hv |].
  exact (proj2 (proj2 (search_move_consumes_direction (bot_on board_3x1) board_3x1 Right Hv))).
Defined.

Lemma moves_left_le self gs : (moves_left self gs ≤ 8)%nat.
Proof.
  unfold moves_left.
  pose proof (length_filter
    (λ dv, is_valid_move gs (my_player self) (getDirectionFromValue dv) = true) dir_values).
  pose proof (length_filter
    (λ dv, is_valid_move gs (opponent self) (getDirectionFromValue dv) = true) dir_values).
  cbn [dir_values length] in *. lia.
Qed.

(** X4: [minimax] returns for every depth, negative ones included, and
    for every window: at most eight calls are ever nested, since at most
    eight (player, direction) pairs are legal and each nested call has
    consumed one; any larger budget gives the same value. *)
Theorem minimax_nesting_bounded self gs depth maximizingPlayer alpha beta (extra : nat) :
  (moves_left self gs ≤ 8)%nat ∧
  minimax_fuel (9 + extra) self gs depth maximizingPlayer alpha beta
  = Some (minimax self gs depth maximizingPlayer alpha beta).
Proof.
  pose proof (moves_left_le self gs) as Hle. split; [done |].
  apply minimax_fuel_minimax. lia.
Qed.

(** X5: called with any window alpha < beta, [minimax] returns the full
    minimax value when that value lies strictly inside the window, a
    value that is at most alpha and not below the full value when the
    search fails low, and a value that is at least beta and not above the
    full value when it fails high. *)
Theorem minimax_window_sound self gs depth maximizingPlayer alpha beta :
  INT_MIN ≤ alpha → alpha < beta → beta ≤ INT_MAX →
  window_bound (minimax self gs depth maximizingPlayer alpha beta)
               (minimax_unpruned self gs depth maximizingPlayer) alpha beta.
Proof.
  intros Hlo Hlt Hhi.
  destruct (minimax_fuel_window self (S (moves_left self gs)) (moves_left self gs)
              gs depth maximizingPlayer alpha beta)
    as (r & Hr & Hbound); try done; try lia.
  unfold minimax, minimax_unpruned. by rewrite Hr.
Qed.

Lemma minimax_window_sound_witness :
  INT_MIN ≤ -1 ∧ -1 < 1 ∧ 1 ≤ INT_MAX ∧
  window_bound (minimax (bot_on board_3x3) board_3x3 2 false (-1) 1)
               (minimax_unpruned (bot_on board_3x3) board_3x3 2 false) (-1) 1.
Proof.
  assert (INT_MIN ≤ -1) as Hlo by (by vm_compute).
  assert (-1 < 1) as Hlt by reflexivity.
  assert (1 ≤ INT_MAX) as Hhi by (by vm_compute).
  split; [exact Hlo |]. split; [exact Hlt |]. split; [exact Hhi |].
  exact (minimax_window_sound (bot_on board_3x3) board_3x3 2 false (-1) 1 Hlo Hlt Hhi).
Defined.

(** ** What the driver returns *)

(** X6: when some legal direction scores above the smallest [int],
    [decideMove] returns a legal direction whose score no legal direction
    exceeds, and every legal direction that comes earlier in canonical
    order scores strictly less. *)
Theorem decideMove_returns_best_legal self :
  Exists (λ dir, INT_MIN < move_score self dir) (legal_moves (state self) (my_player self)) →
  is_valid_move (state self) (my_player self) (decideMove self) = true ∧
  (∀ dir, is_valid_move (state self) (my_player self) dir = true →
          move_score self dir ≤ move_score self (decideMove self)) ∧
  ∃ before after,
    legal_moves (state self) (my_player self) = before ++ decideMove self :: after ∧
    Forall (λ dir, move_score self dir < move_score self (decideMove self)) before.
Proof.
  intros Hsome.
  destruct (decideMove_first_best self Hsome) as (before & after & Hlegal & Hb & Ha).
  split; [| split].
  - apply legal_moves_valid. rewrite Hlegal. set_solver.
  - intros dir Hdir%legal_moves_valid. rewrite Hlegal in Hdir.
    rewrite Forall_forall in Hb, Ha.
    apply elem_of_app in Hdir as [Hdir | [-> | Hdir]%elem_of_cons].
    + specialize (Hb dir Hdir). lia.
    + lia.
    + by apply Ha.
  - by exists before, after.
Qed.

Lemma decideMove_returns_best_legal_witness :
  Exists (λ dir, INT_MIN < move_score (bot_on board_3x3) dir)
         (legal_moves (state (bot_on board_3x3)) (my_player (bot_on board_3x3))) ∧
  is_valid_move (state (bot_on board_3x3)) (my_player (bot_on board_3x3))
                (decideMove (bot_on board_3x3)) = true.
Proof.
  assert (Exists (λ dir, INT_MIN < move_score (bot_on board_3x3) dir)
                 (legal_moves (state (bot_on board_3x3)) (my_player (bot_on board_3x3))))
    as Hsome.
  { apply (Exists_cons_hd _ Down [Right]). by vm_compute. }
  split; [exact Hsome |].
  exact (proj1 (decideMove_returns_best_legal (bot_on board_3x3) Hsome)).
Defined.

(** X7: whatever the state, [decideMove] returns either a direction that
    is legal for self or the default Up. *)
Theorem decideMove_legal_or_default self :
  is_valid_move (state self) (my_player self) (decideMove self) = true ∨
  decideMove self = Up.
Proof.
  unfold decideMove.
  destruct (decideMove_loop_first_best self dir_values INT_MIN Up)
    as [[_ ->] | (before & best & after & Hlegal & -> & _)]; [by right |].
  left. apply legal_moves_valid. unfold legal_moves. rewrite Hlegal. set_solver.
Qed.

(** ** Areas *)

Lemma floodFill_reached_size gs start :
  0 ≤ gridWidth gs → 0 ≤ gridHeight gs →
  gridWidth gs * gridHeight gs ≤ INT_MAX →
  ∃ seen : gset (Z * Z),
    floodFill gs start = Z.of_nat (size seen) ∧ (∀ p, p ∈ seen ↔ reached gs start p).
Proof.
  intros Hw Hh Hsize.
  destruct (floodFill_run_spec gs start) as (visited & seen & Hrun & Hinv & Hseen).
  pose proof (flood_inv_size gs start visited seen [] Hw Hh Hinv) as Hcount.
  exists seen. split; [| done].
  unfold floodFill. rewrite Hrun, wrap_int_id; [done |]. unfold INT_MIN. lia.
Qed.

Lemma reached_mono gs gs' start p :
  (∀ q, free_cell gs' q → free_cell gs q) →
  reached gs' start p → reached gs start p.
Proof.
  intros Hfree. induction 1 as [Hs | p d _ IH Hq].
  - by apply reached_start, Hfree.
  - by apply reached_step; [| apply Hfree].
Qed.

Lemma movePlayer_free gs player dir q :
  free_cell (movePlayer gs player dir).1 q → free_cell gs q.
Proof.
  unfold free_cell. rewrite movePlayer_inside, movePlayer_cell.
  destruct (decide _); [intros [_ ?]; lia | done].
Qed.

(** X8: blocking a cell never enlarges an area: from every start
    position, [floodFill] on the state that [movePlayer] leaves returns at
    most what it returns on the state before the move. *)
Theorem floodFill_shrinks_under_move gs player dir start :
  0 ≤ gridWidth gs → 0 ≤ gridHeight gs →
  gridWidth gs * gridHeight gs ≤ INT_MAX →
  floodFill (movePlayer gs player dir).1 start ≤ floodFill gs start.
Proof.
  intros Hw Hh Hsize.
  destruct (floodFill_reached_size gs start Hw Hh Hsize) as (seen & -> & Hseen).
  destruct (floodFill_reached_size (movePlayer gs player dir).1 start Hw Hh Hsize)
    as (seen' & -> & Hseen').
  apply inj_le, subseteq_size. intros p Hp.
  apply Hseen. eapply reached_mono; [| by apply Hseen'].
  apply movePlayer_free.
Qed.

Lemma floodFill_shrinks_under_move_witness :
  0 ≤ gridWidth board_3x3 ∧ 0 ≤ gridHeight board_3x3 ∧
  gridWidth board_3x3 * gridHeight board_3x3 ≤ INT_MAX ∧
  floodFill (movePlayer board_3x3 (mkPlayer "a" (0, 0)) Right).1 (2, 2)
  ≤ floodFill board_3x3 (2, 2).
Proof.
  assert (0 ≤ 3) as Hdim by (by vm_compute).
  assert (gridWidth board_3x3 * gridHeight board_3x3 ≤ INT_MAX) as Hsize
    by (by vm_compute).
  split; [exact Hdim |]. split; [exact Hdim |]. split; [exact Hsize |].
  exact (floodFill_shrinks_under_move board_3x3 (mkPlayer "a" (0, 0)) Right (2, 2)
           Hdim Hdim Hsize).
Defined.

Lemma adjacent_sym p q : adjacent p q → adjacent q p.
Proof. unfold adjacent. lia. Qed.

Lemma reachable_free gs start p : reachable gs start p → free_cell gs start ∧ free_cell gs p.
Proof. induction 1 as [| p q _ [? _] _ ?]; done. Qed.

Lemma reachable_trans gs a b c :
  reachable gs a b → reachable gs b c → reachable gs a c.
Proof.
  intros Hab. induction 1 as [| p q _ IH Hadj Hq]; [done |].
  by apply reachable_step with p.
Qed.

Lemma reachable_sym gs a b : reachable gs a b → reachable gs b a.
Proof.
  induction 1 as [Ha | p q Hp IH Hadj Hq]; [by apply reachable_start |].
  apply reachable_trans with p; [| done].
  apply reachable_step with q; [by apply reachable_start | by apply adjacent_sym |].
  by apply (reachable_free gs a p).
Qed.

(** X9: the area is a property of the region, not of the cell: from two
    free cells that a walk over free cells connects, [floodFill] returns
    the same number; so [evaluate] is 0 whenever such a walk connects the
    positions of the two players. *)
Theorem floodFill_same_region self gs a b :
  gridWidth gs * gridHeight gs ≤ INT_MAX →
  reachable gs a b →
  floodFill gs a = floodFill gs b ∧
  (a = position (my_player self) → b = position (opponent self) → evaluate self gs = 0).
Proof.
  intros Hsize Hab.
  destruct (reachable_free gs a b Hab) as [Ha Hb].
  assert (floodFill gs a = floodFill gs b) as Heq.
  { destruct (floodFill_run_reachable gs a Hsize Ha) as (va & sa & Hra & _ & Hsa).
    destruct (floodFill_run_reachable gs b Hsize Hb) as (vb & sb & Hrb & _ & Hsb).
    unfold floodFill. rewrite Hra, Hrb. do 2 f_equal.
    apply set_eq. intros p. rewrite Hsa, Hsb. split; intros Hp.
    - apply reachable_trans with a; [by apply reachable_sym | done].
    - by apply reachable_trans with b. }
  split; [done |]. intros -> ->. unfold evaluate. by rewrite Heq, Z.sub_diag.
Qed.

Lemma floodFill_same_region_witness :
  gridWidth board_3x3 * gridHeight board_3x3 ≤ INT_MAX ∧
  reachable board_3x3 (0, 0) (2, 2) ∧
  floodFill board_3x3 (0, 0) = floodFill board_3x3 (2, 2).
Proof.
  assert (gridWidth board_3x3 * gridHeight board_3x3 ≤ INT_MAX) as Hsize
    by (by vm_compute).
  assert (reachable board_3x3 (0, 0) (2, 2)) as Hwalk.
  { apply free_grid_reachable; [by intros p _ | reflexivity | reflexivity]. }
  split; [exact Hsize |]. split; [exact Hwalk |].
  exact (proj1 (floodFill_same_region (bot_on board_3x3) board_3x3 (0, 0) (2, 2)
                  Hsize Hwalk)).
Defined.

(** X10: [evaluate] is antisymmetric in the two players and bounded by
    the size of the grid: exchanging self and opponent negates it, and
    its absolute value is at most width times height. *)
Theorem evaluate_swap self gs :
  0 ≤ gridWidth gs → 0 ≤ gridHeight gs →
  gridWidth gs * gridHeight gs ≤ INT_MAX →
  evaluate (swap_players self) gs = - evaluate self gs ∧
  Z.abs (evaluate self gs) ≤ gridWidth gs * gridHeight gs.
Proof.
  intros Hw Hh Hsize.
  pose proof (floodFill_bounds gs (position (my_player self)) Hw Hh Hsize) as Hmy.
  pose proof (floodFill_bounds gs (position (opponent self)) Hw Hh Hsize) as Hopp.
  unfold evaluate, swap_players. cbn [my_player opponent].
  rewrite !wrap_int_id by (unfold INT_MIN, INT_MAX in *; lia). lia.
Qed.

Lemma evaluate_swap_witness :
  0 ≤ gridWidth board_corner ∧ 0 ≤ gridHeight board_corner ∧
  gridWidth board_corner * gridHeight board_corner ≤ INT_MAX ∧
  evaluate (swap_players (bot_on board_corner)) board_corner
  = - evaluate (bot_on board_corner) board_corner.
Proof.
  assert (0 ≤ 3) as Hdim by (by vm_compute).
  assert (gridWidth board_corner * gridHeight board_corner ≤ INT_MAX) as Hsize
    by (by vm_compute).
  split; [exact Hdim |]. split; [exact Hdim |]. split; [exact Hsize |].
  exact (proj1 (evaluate_swap (bot_on board_corner) board_corner Hdim Hdim Hsize)).
Defined.

Lemma floodFill_blocked gs start : getGridCell gs start ≠ 0 → floodFill gs start = 0.
Proof.
  intros Hcell.
  destruct (floodFill_run_spec gs start) as (visited & seen & Hrun & _ & Hseen).
  assert (seen = ∅) as ->.
  { apply set_eq. intros p. rewrite Hseen. split; [| by intros ?%not_elem_of_empty].
    intros Hp. assert (free_cell gs start) as [_ ?]; [| done].
    clear Hcell. induction Hp; done. }
  unfold floodFill. by rewrite Hrun, size_empty.
Qed.

Lemma search_state_blocked self gs p :
  search_state self gs → getGridCell (state self) p ≠ 0 → getGridCell gs p ≠ 0.
Proof.
  intros Hgs Hp. induction Hgs as [| gs dir _ IH _ | gs dir _ IH _]; [done | |];
    rewrite movePlayer_cell; by destruct (decide _).
Qed.

(** X11: trails are permanent during a decision: a cell that is blocked
    in the received state is blocked in every state of the search.  The
    search keeps both players where the snapshot has them, so when the
    cells under the two players are blocked in the snapshot, [evaluate] is
    0 in every state of the search. *)
Theorem evaluate_zero_on_blocked_heads self gs :
  search_state self gs →
  (∀ p, getGridCell (state self) p ≠ 0 → getGridCell gs p ≠ 0) ∧
  (getGridCell (state self) (position (my_player self)) ≠ 0 →
   getGridCell (state self) (position (opponent self)) ≠ 0 →
   evaluate self gs = 0).
Proof.
  intros Hgs. split; [intros p; by apply search_state_blocked |].
  intros Hmy Hopp. unfold evaluate.
  rewrite !floodFill_blocked by (by apply (search_state_blocked self)). done.
Qed.

Lemma evaluate_zero_on_blocked_heads_witness :
  search_state (bot_on board_corner)
    (movePlayer board_corner (my_player (bot_on board_corner)) Right).1 ∧
  evaluate (bot_on board_corner)
    (movePlayer board_corner (my_player (bot_on board_corner)) Right).1 = 0.
Proof.
  assert (search_state (bot_on board_corner)
            (movePlayer board_corner (my_player (bot_on board_corner)) Right).1) as Hgs.
  { exact (search_my_move (bot_on board_corner) board_corner Right
             (search_root (bot_on board_corner)) eq_refl). }
  split; [exact Hgs |].
  refine (proj2 (evaluate_zero_on_blocked_heads (bot_on board_corner) _ Hgs) _ _);
    by vm_compute.
Defined.

(** * Properties of the area-comparing bot *)

(** ** Its flood fill *)

Lemma count_false_le column : (count_false column ≤ length column)%nat.
Proof. induction column as [|[] column IH]; cbn; lia. Qed.

Lemma unvisited_le gs visited :
  visited_shape gs visited →
  (unvisited visited ≤ Z.to_nat (gridWidth gs) * Z.to_nat (gridHeight gs))%nat.
Proof.
  intros [Hlen Hcols]. rewrite <- Hlen. clear Hlen.
  induction Hcols as [|column visited Hcol _ IH]; cbn; [lia |].
  pose proof (count_false_le column). lia.
Qed.

Lemma smarter_loop_agrees self fuel : ∀ visited queue area,
  floodFill_loop fuel (Smarter.state self) visited queue area
  = match Smarter.floodFill_loop fuel self visited queue area with
    | Done result => Done result.1
    | OutOfRange => OutOfRange
    | OutOfFuel => OutOfFuel
    end.
Proof.
  induction fuel as [|fuel IH]; intros visited queue area; [done |].
  cbn [floodFill_loop Smarter.floodFill_loop].
  destruct queue as [|pos queue]; [done |].
  destruct (negb (isInsideGrid _ pos)); [by apply IH |].
  destruct (visited_get visited pos) as [[]|]; [by apply IH | | done].
  destruct (negb _); [by apply IH |].
  destruct (visited_mark visited pos); [by apply IH | done].
Qed.

(** The loop on an array of the right dimensions, whatever is marked in
    it: it ends within the budget and the area grows by the number of
    entries that it marks. *)
Lemma smarter_loop_counts self fuel : ∀ visited queue area,
  visited_shape (Smarter.state self) visited →
  (4 * unvisited visited + length queue < fuel)%nat →
  INT_MIN ≤ area ≤ INT_MAX →
  ∃ visited',
    Smarter.floodFill_loop fuel self visited queue area
      = Done (wrap_int (area + (Z.of_nat (unvisited visited) - Z.of_nat (unvisited visited'))),
              visited') ∧
    visited_shape (Smarter.state self) visited' ∧
    (unvisited visited' ≤ unvisited visited)%nat ∧
    (∀ p, visited_get visited p = Some true → visited_get visited' p = Some true) ∧
    (∀ p, visited_get visited' p = Some true →
          visited_get visited p = Some true ∨ free_cell (Smarter.state self) p).
Proof.
  induction fuel as [|fuel IH]; intros visited queue area Hshape Hfuel Harea; [lia |].
  destruct queue as [|pos queue]; cbn [Smarter.floodFill_loop].
  { exists visited. rewrite Z.sub_diag, Z.add_0_r, wrap_int_id by done. eauto 10. }
  cbn [length] in Hfuel.
  destruct (isInsideGrid (Smarter.state self) pos) eqn:Hin; cbn [negb];
    [| apply IH; [done | lia | done]].
  destruct (visited_get_inside _ visited pos Hshape Hin) as [b Hget].
  rewrite Hget. destruct b; [apply IH; [done | lia | done] |].
  destruct (getGridCell (Smarter.state self) pos =? 0) eqn:Hcell; cbn [negb];
    [| apply IH; [done | lia | done]].
  apply Z.eqb_eq in Hcell.
  destruct (visited_mark_inside _ visited pos Hshape Hin Hget)
    as (visited1 & -> & Hshape1 & Hget1 & Hframe & Hcount).
  destruct (IH visited1 (push_neighbours queue pos) (wrap_int (area + 1)) Hshape1)
    as (visited' & -> & Hshape' & Hle & Hkeep & Hnew).
  { rewrite push_neighbours_eq, length_app. cbn [length fmap list_fmap]. lia. }
  { apply wrap_int_range. }
  exists visited'. split; [| split; [done |]; split; [lia |]; split].
  - rewrite wrap_int_succ.
    by replace (1 + (Z.of_nat (unvisited visited1) - Z.of_nat (unvisited visited')))
      with (Z.of_nat (unvisited visited) - Z.of_nat (unvisited visited')) by lia.
  - intros p Hp. apply Hkeep. destruct (decide (p = pos)) as [-> | Hne]; [done |].
    by rewrite Hframe.
  - intros p Hp. destruct (decide (p = pos)) as [-> | Hne]; [by right |].
    destruct (Hnew p Hp) as [Hold | ?]; [| by right]. left. by rewrite <- Hframe.
Qed.

(** The loop started on one cell with the invariant of the flood fill. *)
Lemma smarter_loop_spec self start fuel : ∀ visited seen queue area,
  flood_inv (Smarter.state self) start visited seen queue →
  (4 * unvisited visited + length queue < fuel)%nat →
  ∃ area' visited' seen',
    Smarter.floodFill_loop fuel self visited queue area = Done (area', visited') ∧
    flood_inv (Smarter.state self) start visited' seen' [].
Proof.
  induction fuel as [|fuel IH]; intros visited seen queue area Hinv Hfuel; [lia |].
  destruct queue as [|pos queue]; cbn [Smarter.floodFill_loop]; [by eauto |].
  cbn [length] in Hfuel.
  destruct (isInsideGrid (Smarter.state self) pos) eqn:Hin; cbn [negb].
  2: { apply (IH visited seen); [| lia].
       eapply flood_inv_skip; [done |]. intros [? _]. congruence. }
  destruct (visited_get_inside _ visited pos (inv_shape _ _ _ _ _ Hinv) Hin) as [b Hget].
  rewrite Hget. destruct b.
  { apply (IH visited seen); [| lia].
    eapply flood_inv_skip; [done |]. intros _. by apply (inv_seen _ _ _ _ _ Hinv). }
  destruct (getGridCell (Smarter.state self) pos =? 0) eqn:Hcell; cbn [negb].
  2: { apply (IH visited seen); [| lia].
       eapply flood_inv_skip; [done |]. intros [_ ?]. lia. }
  apply Z.eqb_eq in Hcell.
  destruct (visited_mark_inside _ visited pos (inv_shape _ _ _ _ _ Hinv) Hin Hget)
    as (visited1 & -> & Hshape & Hget1 & Hframe & Hcount).
  destruct (flood_inv_mark (Smarter.state self) start visited visited1 seen pos queue)
    as [_ Hinv1]; try done.
  apply (IH visited1 ({[pos]} ∪ seen)); [done |].
  rewrite push_neighbours_eq, length_app. cbn [length fmap list_fmap]. lia.
Qed.

Lemma smarter_fuel_enough gs visited :
  visited_shape gs visited → (4 * unvisited visited + 1 < floodFill_fuel gs)%nat.
Proof. intros Hshape%unvisited_le. unfold floodFill_fuel. lia. Qed.

Lemma smarter_floodFill_run_done self start visited :
  visited_shape (Smarter.state self) visited →
  Smarter.floodFill_run self start visited = Done (Smarter.floodFill self start visited).
Proof.
  intros Hshape.
  destruct (smarter_loop_counts self (floodFill_fuel (Smarter.state self)) visited [start] 0
              Hshape) as (visited' & Hrun & _).
  { by apply smarter_fuel_enough. }
  { by vm_compute. }
  unfold Smarter.floodFill, Smarter.floodFill_run. by rewrite Hrun.
Qed.

(** X12: on an array with the dimensions of the grid, whatever is already
    marked in it, the flood fill of the area-comparing bot ends without an
    access outside the array; it returns the number of entries that it
    marked, which is none when the start is already marked; it keeps every
    earlier mark and marks free cells only. *)
Theorem smarter_floodFill_counts_new_marks self start visited :
  0 ≤ gridWidth (Smarter.state self) → 0 ≤ gridHeight (Smarter.state self) →
  gridWidth (Smarter.state self) * gridHeight (Smarter.state self) ≤ INT_MAX →
  visited_shape (Smarter.state self) visited →
  ∃ area visited',
    Smarter.floodFill_run self start visited = Done (area, visited') ∧
    visited_shape (Smarter.state self) visited' ∧
    area = Z.of_nat (unvisited visited) - Z.of_nat (unvisited visited') ∧
    0 ≤ area ∧
    (∀ p, visited_get visited p = Some true → visited_get visited' p = Some true) ∧
    (∀ p, visited_get visited' p = Some true →
          visited_get visited p = Some true ∨ free_cell (Smarter.state self) p) ∧
    (visited_get visited start = Some true → area = 0 ∧ visited' = visited).
Proof.
  intros Hw Hh Hsize Hshape.
  destruct (smarter_loop_counts self (floodFill_fuel (Smarter.state self)) visited [start] 0
              Hshape) as (visited' & Hrun & Hshape' & Hle & Hkeep & Hnew).
  { by apply smarter_fuel_enough. }
  { by vm_compute. }
  pose proof (unvisited_le _ _ Hshape) as Hbound.
  assert (Z.of_nat (unvisited visited) ≤ INT_MAX) as Hmax.
  { apply Nat2Z.inj_le in Hbound. rewrite Nat2Z.inj_mul, !Z2Nat.id in Hbound by done. lia. }
  rewrite wrap_int_id in Hrun by (unfold INT_MIN; lia).
  eexists _, visited'. split; [exact Hrun |].
  split; [done |]. split; [lia |]. split; [lia |]. split; [done |]. split; [done |].
  intros Hstart.
  assert (Smarter.floodFill_run self start visited = Done (0, visited)) as Hrun'.
  { unfold Smarter.floodFill_run, floodFill_fuel.
    replace (4 * (Z.to_nat (gridWidth (Smarter.state self))
                  * Z.to_nat (gridHeight (Smarter.state self))) + 2)%nat
      with (S (S (4 * (Z.to_nat (gridWidth (Smarter.state self))
                       * Z.to_nat (gridHeight (Smarter.state self))))))%nat by lia.
    cbn [Smarter.floodFill_loop]. rewrite Hstart.
    by destruct (negb (isInsideGrid (Smarter.state self) start)). }
  unfold Smarter.floodFill_run in Hrun'. rewrite Hrun in Hrun'.
  injection Hrun' as Harea ->. split; [lia | done].
Qed.

Lemma smarter_floodFill_counts_new_marks_witness :
  0 ≤ 3 ∧ 3 * 3 ≤ INT_MAX ∧
  visited_shape board_3x3 (visited_init board_3x3) ∧
  ∃ area visited',
    Smarter.floodFill_run
      (Smarter.mkBot "a" board_3x3 (mkPlayer "a" (0, 0)) (mkPlayer "b" (2, 2)))
      (1, 0) (visited_init board_3x3) = Done (area, visited') ∧
    0 ≤ area.
Proof.
  assert (0 ≤ 3) as Hdim by (by vm_compute).
  assert (3 * 3 ≤ INT_MAX) as Hsize by (by vm_compute).
  pose proof (visited_shape_init board_3x3) as Hshape.
  split; [exact Hdim |]. split; [exact Hsize |]. split; [exact Hshape |].
  destruct (smarter_floodFill_counts_new_marks
              (Smarter.mkBot "a" board_3x3 (mkPlayer "a" (0, 0)) (mkPlayer "b" (2, 2)))
              (1, 0) (visited_init board_3x3) Hdim Hdim Hsize Hshape)
    as (area & visited' & Hrun & _ & _ & Hpos & _).
  exists area, visited'. split; [exact Hrun | exact Hpos].
Defined.

(** X13: started on a freshly built array, the flood fill of the
    area-comparing bot returns the area that the flood fill of the minimax
    bot returns for the same state and start. *)
Theorem smarter_floodFill_agrees self start :
  Smarter.floodFill_run self start (visited_init (Smarter.state self))
  = Done (Smarter.floodFill self start (visited_init (Smarter.state self))) ∧
  (Smarter.floodFill self start (visited_init (Smarter.state self))).1
  = floodFill (Smarter.state self) start.
Proof.
  pose proof (smarter_floodFill_run_done self start _
                (visited_shape_init (Smarter.state self))) as Hrun.
  split; [done |].
  unfold floodFill, floodFill_run. rewrite smarter_loop_agrees.
  unfold Smarter.floodFill_run in Hrun. by rewrite Hrun.
Qed.

Lemma smarter_floodFill_marked self start visited :
  visited_get visited start = Some true →
  Smarter.floodFill self start visited = (0, visited).
Proof.
  intros Hstart. unfold Smarter.floodFill, Smarter.floodFill_run, floodFill_fuel.
  replace (4 * (Z.to_nat (gridWidth (Smarter.state self))
                * Z.to_nat (gridHeight (Smarter.state self))) + 2)%nat
    with (S (S (4 * (Z.to_nat (gridWidth (Smarter.state self))
                     * Z.to_nat (gridHeight (Smarter.state self))))))%nat by lia.
  cbn [Smarter.floodFill_loop]. rewrite Hstart.
  by destruct (negb (isInsideGrid (Smarter.state self) start)).
Qed.

Lemma smarter_first_fill self start :
  ∃ seen : gset (Z * Z),
    flood_inv (Smarter.state self) start
      (Smarter.floodFill self start (visited_init (Smarter.state self))).2 seen [].
Proof.
  destruct (smarter_loop_spec self start (floodFill_fuel (Smarter.state self))
              (visited_init (Smarter.state self)) ∅ [start] 0
              (flood_inv_init (Smarter.state self) start))
    as (area & visited & seen & Hrun & Hinv).
  { apply smarter_fuel_enough, visited_shape_init. }
  exists seen. unfold Smarter.floodFill, Smarter.floodFill_run. by rewrite Hrun.
Qed.

Lemma smarter_first_fill_marks self a p :
  visited_get (Smarter.floodFill self a (visited_init (Smarter.state self))).2 p = Some true
  ↔ reached (Smarter.state self) a p.
Proof.
  destruct (smarter_first_fill self a) as [seen Hinv].
  rewrite <- (inv_seen _ _ _ _ _ Hinv).
  by apply flood_inv_final with (Smarter.floodFill self a (visited_init (Smarter.state self))).2.
Qed.

(** X14: the array that the flood fill of self leaves marks exactly the
    cells of the region of its start, and the opponent's fill runs on a
    copy of that array: started on a cell of that region it returns 0 and
    marks nothing, so such a destination of the opponent adds nothing to
    [opp_area]. *)
Theorem smarter_opponent_fill_skips_my_region self a b :
  let visited := (Smarter.floodFill self a (visited_init (Smarter.state self))).2 in
  (∀ p, visited_get visited p = Some true ↔ reached (Smarter.state self) a p) ∧
  (reached (Smarter.state self) a b → Smarter.floodFill self b visited = (0, visited)).
Proof.
  intros visited. destruct (smarter_first_fill self a) as [seen Hinv]. fold visited in Hinv.
  assert (∀ p, visited_get visited p = Some true ↔ reached (Smarter.state self) a p) as Hmarks.
  { intros p. rewrite <- (inv_seen _ _ _ _ _ Hinv). by apply flood_inv_final with visited. }
  split; [done |]. intros Hb. by apply smarter_floodFill_marked, Hmarks.
Qed.

(** X15: a cell counted for self is never counted for the opponent: the
    area of self plus the area that one fill of the opponent finds on the
    copy of the marked array is at most width times height, and neither
    is negative. *)
Theorem smarter_areas_disjoint self a b :
  0 ≤ gridWidth (Smarter.state self) → 0 ≤ gridHeight (Smarter.state self) →
  gridWidth (Smarter.state self) * gridHeight (Smarter.state self) ≤ INT_MAX →
  let mine := Smarter.floodFill self a (visited_init (Smarter.state self)) in
  let theirs := Smarter.floodFill self b mine.2 in
  0 ≤ mine.1 ∧ 0 ≤ theirs.1 ∧
  mine.1 + theirs.1 ≤ gridWidth (Smarter.state self) * gridHeight (Smarter.state self).
Proof.
  intros Hw Hh Hsize mine theirs.
  destruct (smarter_loop_counts self (floodFill_fuel (Smarter.state self))
              (visited_init (Smarter.state self)) [a] 0 (visited_shape_init _))
    as (v1 & Hrun1 & Hshape1 & Hle1 & _).
  { apply smarter_fuel_enough, visited_shape_init. }
  { by vm_compute. }
  destruct (smarter_loop_counts self (floodFill_fuel (Smarter.state self)) v1 [b] 0 Hshape1)
    as (v2 & Hrun2 & _ & Hle2 & _).
  { by apply smarter_fuel_enough. }
  { by vm_compute. }
  rewrite unvisited_init in Hrun1, Hle1.
  assert (Z.of_nat (Z.to_nat (gridWidth (Smarter.state self))
                    * Z.to_nat (gridHeight (Smarter.state self)))
          = gridWidth (Smarter.state self) * gridHeight (Smarter.state self)) as Hcells.
  { by rewrite Nat2Z.inj_mul, !Z2Nat.id. }
  rewrite wrap_int_id in Hrun1 by (unfold INT_MIN; lia).
  rewrite wrap_int_id in Hrun2 by (unfold INT_MIN; lia).
  assert (mine = (0 + (Z.of_nat (Z.to_nat (gridWidth (Smarter.state self))
                                 * Z.to_nat (gridHeight (Smarter.state self)))
                       - Z.of_nat (unvisited v1)), v1)) as Hmine.
  { unfold mine, Smarter.floodFill, Smarter.floodFill_run. by rewrite Hrun1. }
  assert (theirs = (0 + (Z.of_nat (unvisited v1) - Z.of_nat (unvisited v2)), v2)) as Htheirs.
  { unfold theirs. rewrite Hmine. cbn [snd].
    unfold Smarter.floodFill, Smarter.floodFill_run. by rewrite Hrun2. }
  rewrite Hmine, Htheirs. cbn [fst]. lia.
Qed.

Lemma smarter_areas_disjoint_witness :
  0 ≤ 3 ∧ 3 * 3 ≤ INT_MAX ∧
  (Smarter.floodFill (Smarter.mkBot "a" board_corner (mkPlayer "a" (0, 0)) (mkPlayer "b" (2, 2)))
     (1, 0) (visited_init board_corner)).1
  + (Smarter.floodFill (Smarter.mkBot "a" board_corner (mkPlayer "a" (0, 0)) (mkPlayer "b" (2, 2)))
       (2, 1)
       (Smarter.floodFill
          (Smarter.mkBot "a" board_corner (mkPlayer "a" (0, 0)) (mkPlayer "b" (2, 2)))
          (1, 0) (visited_init board_corner)).2).1 ≤ 3 * 3.
Proof.
  assert (0 ≤ 3) as Hdim by (by vm_compute).
  assert (3 * 3 ≤ INT_MAX) as Hsize by (by vm_compute).
  split; [exact Hdim |]. split; [exact Hsize |].
  exact (proj2 (proj2 (smarter_areas_disjoint
           (Smarter.mkBot "a" board_corner (mkPlayer "a" (0, 0)) (mkPlayer "b" (2, 2)))
           (1, 0) (2, 1) Hdim Hdim Hsize))).
Defined.

(** ** Its decision *)

Lemma smarter_moves_loop_eq self dvs : ∀ moves,
  Smarter.moves_loop self (position (Smarter.my_player self))
                     (position (Smarter.opponent self)) dvs moves
  = moves ++ ((λ dir, (dir, Smarter.move_score self dir))
                <$> filter (λ dir, Smarter.is_valid_move self dir = true)
                           (getDirectionFromValue <$> dvs)).
Proof.
  induction dvs as [|dv dvs IH]; intros moves; cbn [Smarter.moves_loop].
  { by rewrite app_nil_r. }
  rewrite fmap_cons, filter_cons.
  destruct (Smarter.is_valid_move self (getDirectionFromValue dv)) eqn:Hv.
  - rewrite decide_True by done. rewrite fmap_cons.
    transitivity (Smarter.moves_loop self (position (Smarter.my_player self))
                    (position (Smarter.opponent self)) dvs
                    (moves ++ [(getDirectionFromValue dv,
                                Smarter.move_score self (getDirectionFromValue dv))])).
    + unfold Smarter.move_score. by destruct (Smarter.floodFill self _ _).
    + by rewrite IH, <- app_assoc.
  - rewrite decide_False by done. apply IH.
Qed.

Lemma max_element_from_first rest : ∀ largest,
  ∃ before after,
    largest :: rest = before ++ Smarter.max_element_from largest rest :: after ∧
    Forall (λ x, x.2 < (Smarter.max_element_from largest rest).2) before ∧
    Forall (λ x, x.2 ≤ (Smarter.max_element_from largest rest).2) after.
Proof.
  induction rest as [|x rest IH]; intros largest; cbn [Smarter.max_element_from].
  { exists [], []. by repeat split. }
  destruct (Z.ltb_spec largest.2 x.2) as [Hlt | Hge].
  - destruct (IH x) as (before & after & Heq & Hb & Ha).
    set (m := Smarter.max_element_from x rest) in *. clearbody m.
    exists (largest :: before), after. rewrite Heq. split; [done |]. split; [| done].
    apply Forall_cons. split; [| done].
    destruct before as [|y before]; cbn in Heq; injection Heq as Hx _.
    + rewrite <- Hx. done.
    + apply Forall_cons in Hb as [Hy _]. subst y. lia.
  - destruct (IH largest) as (before & after & Heq & Hb & Ha).
    set (m := Smarter.max_element_from largest rest) in *. clearbody m.
    destruct before as [|y before]; cbn in Heq; injection Heq as Hl Hrest.
    + subst m rest. exists [], (x :: after).
      split; [done |]. split; [done |]. apply Forall_cons. split; [done | done].
    + subst y rest. exists (largest :: x :: before), after.
      split; [done |]. split; [| done].
      apply Forall_cons in Hb as [Hy Hb].
      apply Forall_cons. split; [done |]. apply Forall_cons. split; [lia | done].
Qed.

(** X16: the area-comparing bot exits when self has no legal direction,
    and only then; otherwise it returns a legal direction whose score no
    legal direction exceeds, the first such direction in canonical
    order. *)
Theorem smarter_decideMove_best_legal self :
  (Smarter.decideMove self = None ↔ ∀ dir, Smarter.is_valid_move self dir = false) ∧
  (∀ best, Smarter.decideMove self = Some best →
     Smarter.is_valid_move self best = true ∧
     (∀ dir, Smarter.is_valid_move self dir = true →
             Smarter.move_score self dir ≤ Smarter.move_score self best) ∧
     ∃ before after,
       filter (λ dir, Smarter.is_valid_move self dir = true)
              (getDirectionFromValue <$> dir_values) = before ++ best :: after ∧
       Forall (λ dir, Smarter.move_score self dir < Smarter.move_score self best) before).
Proof.
  unfold Smarter.decideMove. rewrite smarter_moves_loop_eq, app_nil_l.
  set (legal := filter (λ dir, Smarter.is_valid_move self dir = true)
                       (getDirectionFromValue <$> dir_values)).
  assert (∀ dir, dir ∈ legal ↔ Smarter.is_valid_move self dir = true) as Hlegal.
  { intros dir. unfold legal. rewrite list_elem_of_filter. split; [by intros [? _] |].
    intros Hv. split; [done | apply directions_enumerated]. }
  destruct legal as [|first rest] eqn:Hl; cbn [fmap list_fmap].
  { split; [| by intros best ?]. split; [| done]. intros _ dir.
    apply not_true_is_false. intros Hv%Hlegal. by apply elem_of_nil in Hv. }
  split.
  { split; [done |]. intros Hno. specialize (Hno first).
    assert (first ∈ first :: rest) as Hin%Hlegal by left. congruence. }
  intros best Hbest.
  destruct (max_element_from_first
              ((λ dir, (dir, Smarter.move_score self dir)) <$> rest)
              (first, Smarter.move_score self first))
    as (before & after & Heq & Hb & Ha).
  injection Hbest as Hbest.
  change ((first, Smarter.move_score self first)
          :: ((λ dir, (dir, Smarter.move_score self dir)) <$> rest))
    with ((λ dir, (dir, Smarter.move_score self dir)) <$> (first :: rest)) in Heq.
  apply fmap_app_inv in Heq as (before' & tail & -> & Htail & Hsplit).
  symmetry in Htail. apply fmap_cons_inv in Htail as (best' & after' & Hmax & -> & ->).
  rewrite Hmax in Hbest, Hb, Ha. cbn [fst snd] in *. subst best'.
  rewrite Forall_fmap in Hb, Ha. rewrite Forall_forall in Ha.
  split; [| split].
  - apply Hlegal. rewrite Hsplit. apply elem_of_app. right. by left.
  - intros dir Hdir%Hlegal. rewrite Hsplit in Hdir.
    apply elem_of_app in Hdir as [Hdir | [-> | Hdir]%elem_of_cons].
    + rewrite Forall_forall in Hb. specialize (Hb dir Hdir). cbn in Hb. lia.
    + lia.
    + by apply (Ha dir).
  - by exists before', after'.
Qed.

Lemma smarter_opp_area_bounds self visited opp_position (bound : Z) dvs : ∀ opp_area,
  (∀ b, 0 ≤ (Smarter.floodFill self b visited).1 ≤ bound) →
  0 ≤ opp_area → opp_area + Z.of_nat (length dvs) * bound ≤ INT_MAX →
  opp_area ≤ Smarter.opp_area_loop self visited opp_position dvs opp_area
  ≤ opp_area + Z.of_nat (length dvs) * bound.
Proof.
  intros opp_area Hfill. revert opp_area.
  induction dvs as [|dv dvs IH]; intros opp_area Hpos Hmax; cbn [Smarter.opp_area_loop].
  { cbn. lia. }
  cbn [length] in Hmax |- *. rewrite Nat2Z.inj_succ, Z.mul_succ_l in Hmax |- *.
  assert (0 ≤ bound) as Hbound by (specialize (Hfill (0, 0)); lia).
  assert (0 ≤ Z.of_nat (length dvs) * bound) as Hrest by (apply Z.mul_nonneg_nonneg; lia).
  destruct (_ && _).
  - pose proof (Hfill (vadd opp_position (getDirectionVector (getDirectionFromValue dv))))
      as Hb.
    destruct (Smarter.floodFill self _ visited) as [area visited']. cbn [fst] in Hb.
    rewrite wrap_int_id by (unfold INT_MIN; lia).
    specialize (IH (opp_area + area)). lia.
  - specialize (IH opp_area). lia.
Qed.

(** X17: the score of a direction is the area of self's destination minus
    the areas of the opponent's destinations outside that region, each
    counted once per direction that leads to it: it is at most the area
    of self, at least that area minus four times the number of cells
    outside the region, and equal to it when every free destination of
    the opponent lies in the region of self's destination. *)
Theorem smarter_move_score_bounds self dir :
  0 ≤ gridWidth (Smarter.state self) → 0 ≤ gridHeight (Smarter.state self) →
  4 * (gridWidth (Smarter.state self) * gridHeight (Smarter.state self)) ≤ INT_MAX →
  let new_pos := vadd (position (Smarter.my_player self)) (getDirectionVector dir) in
  let my_area := floodFill (Smarter.state self) new_pos in
  let outside := gridWidth (Smarter.state self) * gridHeight (Smarter.state self) - my_area in
  my_area - 4 * outside ≤ Smarter.move_score self dir ≤ my_area ∧
  ((∀ e, free_cell (Smarter.state self) (neighbour (position (Smarter.opponent self)) e) →
         reached (Smarter.state self) new_pos
                 (neighbour (position (Smarter.opponent self)) e)) →
   Smarter.move_score self dir = my_area).
Proof.
  intros Hw Hh Hsize new_pos my_area outside.
  assert (Z.of_nat (Z.to_nat (gridWidth (Smarter.state self))
                    * Z.to_nat (gridHeight (Smarter.state self)))
          = gridWidth (Smarter.state self) * gridHeight (Smarter.state self)) as Hcells.
  { by rewrite Nat2Z.inj_mul, !Z2Nat.id. }
  destruct (smarter_loop_counts self (floodFill_fuel (Smarter.state self))
              (visited_init (Smarter.state self)) [new_pos] 0 (visited_shape_init _))
    as (v1 & Hrun1 & Hshape1 & Hle1 & _).
  { apply smarter_fuel_enough, visited_shape_init. }
  { by vm_compute. }
  rewrite unvisited_init in Hrun1, Hle1.
  rewrite wrap_int_id in Hrun1 by (unfold INT_MIN; lia).
  assert (Smarter.floodFill self new_pos (visited_init (Smarter.state self))
          = (gridWidth (Smarter.state self) * gridHeight (Smarter.state self)
             - Z.of_nat (unvisited v1), v1)) as Hmine.
  { unfold Smarter.floodFill, Smarter.floodFill_run. rewrite Hrun1, Hcells. f_equal. }
  assert (my_area = gridWidth (Smarter.state self) * gridHeight (Smarter.state self)
                    - Z.of_nat (unvisited v1)) as Hmy.
  { unfold my_area, floodFill, floodFill_run. rewrite smarter_loop_agrees, Hrun1, Hcells.
    cbn [fst]. lia. }
  assert (∀ b, 0 ≤ (Smarter.floodFill self b v1).1 ≤ Z.of_nat (unvisited v1)) as Hfill.
  { intros b.
    destruct (smarter_loop_counts self (floodFill_fuel (Smarter.state self)) v1 [b] 0 Hshape1)
      as (v2 & Hrun2 & _ & Hle2 & _).
    { by apply smarter_fuel_enough. }
    { by vm_compute. }
    rewrite wrap_int_id in Hrun2 by (unfold INT_MIN; lia).
    unfold Smarter.floodFill, Smarter.floodFill_run. rewrite Hrun2. cbn [fst]. lia. }
  assert (Z.of_nat (unvisited v1)
          ≤ gridWidth (Smarter.state self) * gridHeight (Smarter.state self)) as Hout.
  { rewrite <- Hcells. by apply Nat2Z.inj_le. }
  assert (0 ≤ Smarter.opp_area_loop self v1 (position (Smarter.opponent self)) dir_values 0
          ≤ 4 * Z.of_nat (unvisited v1)) as Hopp.
  { pose proof (smarter_opp_area_bounds self v1 (position (Smarter.opponent self))
                  (Z.of_nat (unvisited v1)) dir_values 0 Hfill) as Hopp.
    cbn [dir_values length] in Hopp. change (Z.of_nat 4) with 4 in Hopp. lia. }
  unfold Smarter.move_score. fold new_pos. rewrite Hmine.
  split.
  - rewrite wrap_int_id by (unfold INT_MIN, INT_MAX in *; lia). unfold outside. lia.
  - intros Hregion.
    assert (∀ dvs, Smarter.opp_area_loop self v1 (position (Smarter.opponent self)) dvs 0 = 0)
      as Hzero.
    { induction dvs as [|dv dvs IH]; [done |]. cbn [Smarter.opp_area_loop].
      destruct (_ && _) eqn:Hfree; [| done].
      apply andb_true_iff in Hfree as [Hin Hcell%Z.eqb_eq].
      rewrite smarter_floodFill_marked; [done |].
      pose proof (smarter_first_fill_marks self new_pos
                    (vadd (position (Smarter.opponent self))
                          (getDirectionVector (getDirectionFromValue dv)))) as Hmarks.
      rewrite Hmine in Hmarks. cbn [snd] in Hmarks. apply Hmarks.
      by apply (Hregion (getDirectionFromValue dv)). }
    rewrite Hzero, Z.sub_0_r, wrap_int_id; [lia |]. unfold INT_MIN, INT_MAX in *. lia.
Qed.

Lemma smarter_move_score_bounds_witness :
  0 ≤ 3 ∧ 4 * (3 * 3) ≤ INT_MAX ∧
  Smarter.move_score
    (Smarter.mkBot "a" board_corner (mkPlayer "a" (0, 0)) (mkPlayer "b" (2, 2))) Right
  ≤ floodFill board_corner (1, 0).
Proof.
  assert (0 ≤ 3) as Hdim by (by vm_compute).
  assert (4 * (3 * 3) ≤ INT_MAX) as Hsize by (by vm_compute).
  split; [exact Hdim |]. split; [exact Hsize |].
  exact (proj2 (proj1 (smarter_move_score_bounds
           (Smarter.mkBot "a" board_corner (mkPlayer "a" (0, 0)) (mkPlayer "b" (2, 2)))
           Right Hdim Hdim Hsize))).
Defined.

(** * Properties of the template bot *)

Lemma determineNextMove_valid_aux {Move : Type} (zero : Move) (random : nat)
    (state : CyclesBot.GameState Move) :
  ∃ move,
    CyclesBot.determineNextMove zero random state = Done move ∧
    (CyclesBot.validMoves state ≠ [] → move ∈ CyclesBot.validMoves state) ∧
    (CyclesBot.validMoves state = [] → move = zero).
Proof.
  unfold CyclesBot.determineNextMove.
  destruct (CyclesBot.validMoves state) as [|first rest] eqn:Hmoves.
  { exists zero. by rewrite bool_decide_eq_true_2. }
  rewrite bool_decide_eq_false_2 by done. cbn [negb].
  destruct (lookup_lt_is_Some_2 (first :: rest) (random mod length (first :: rest))%nat)
    as [move Hmove].
  { apply Nat.mod_upper_bound. done. }
  rewrite Hmove. exists move. split; [done |]. split; [| done].
  intros _. by eapply list_elem_of_lookup_2.
Qed.

(** X18: [determineNextMove] never indexes [validMoves] outside its
    bounds, whatever [rand()] returns: it returns one of the valid moves
    when there is one, and the move [{0, 0}] when there is none; with a
    single valid move the result does not depend on [rand()]. *)
Theorem determineNextMove_valid {Move : Type} (zero : Move) (random : nat)
    (state : CyclesBot.GameState Move) :
  (∃ move,
     CyclesBot.determineNextMove zero random state = Done move ∧
     (CyclesBot.validMoves state ≠ [] → move ∈ CyclesBot.validMoves state) ∧
     (CyclesBot.validMoves state = [] → move = zero)) ∧
  (∀ only, CyclesBot.validMoves state = [only] →
           CyclesBot.determineNextMove zero random state = Done only).
Proof.
  split; [apply determineNextMove_valid_aux |].
  intros only Honly.
  destruct (determineNextMove_valid_aux zero random state) as (move & -> & Hin & _).
  rewrite Honly in Hin. f_equal.
  by apply list_elem_of_singleton, Hin.
Qed.

(** X19: [play] answers every state that precedes the first state with
    [gameOver] set by exactly one move, valid for that state (or
    [{0, 0}] when the state lists none), and sends nothing from that
    state on. *)
Theorem play_one_move_per_live_state {Move : Type} (zero : Move) (rand : nat → nat)
    (states : list (CyclesBot.GameState Move)) : ∀ calls,
  ∃ moves live rest,
    CyclesBot.play zero rand calls states = Done moves ∧
    states = live ++ rest ∧
    Forall (λ state, CyclesBot.gameOver state = false) live ∧
    (∀ state, head rest = Some state → CyclesBot.gameOver state = true) ∧
    Forall2 (λ move state,
               move ∈ CyclesBot.validMoves state ∨
               (CyclesBot.validMoves state = [] ∧ move = zero)) moves live.
Proof.
  induction states as [|state states IH]; intros calls; cbn [CyclesBot.play].
  { exists [], [], []. by repeat split. }
  destruct (CyclesBot.gameOver state) eqn:Hover.
  { exists [], [], (state :: states). repeat split; try done.
    intros state' [= <-]. done. }
  destruct (determineNextMove_valid_aux zero (rand calls) state)
    as (move & -> & Hvalid & Hzero).
  destruct (IH (if negb (bool_decide (CyclesBot.validMoves state = []))
                then S calls else calls))
    as (moves & live & rest & -> & -> & Hlive & Hrest & Hmoves).
  exists (move :: moves), (state :: live), rest.
  split; [done |]. split; [done |]. split; [by apply Forall_cons |]. split; [done |].
  constructor; [| done].
  destruct (CyclesBot.validMoves state) as [|first others] eqn:Hlist.
  - right. split; [done | by apply Hzero].
  - left. by apply Hvalid.
Qed.
